(** * steamControllerSynth: the voice allocator of [steamcontrollersynth.py]

    A shallow embedding of the output port [steam_controller_mido_port]
    (its constructor, the two allocation policies [single_voice] and
    [polyphony], the dispatcher [_send]) and of the file player
    [play_song], followed by the properties of the allocation engine.

    Python integers are [Z]; [//] and [%] by the positive constant 2 are
    [Z.div] and [Z.modulo] (both round towards minus infinity, as Python
    does).  Lists used as arrays are [list] with stdpp's lookup and insert;
    what Python does out of range (negative indices count from the end,
    anything else raises [IndexError]) is written out in [py_index]. *)

From stdpp Require Import base list strings pretty.
From Stdlib Require PrimFloat FloatOps SpecFloat Uint63.

Open Scope string_scope.
Open Scope list_scope.
Open Scope Z_scope.

(** ** Global variables of the script *)

Definition duration_max : Z := -1.
Definition note_stop : Z := -1.

(** [midi_frequency] is a table of 128 floating point frequencies; the
    allocator only depends on which indices it accepts. *)
Definition midi_frequency_len : nat := 128.

(** ** Python values *)

Inductive exn :=
| ValueError (text : string)
| AttributeError (attr : string)
| IndexError.

(** [l[k]] for a list of length [len]: the position read, or [None] where
    Python raises [IndexError]. *)
Definition py_index (len : nat) (k : Z) : option nat :=
  if bool_decide (0 ≤ k < Z.of_nat len) then Some (Z.to_nat k)
  else if bool_decide (- Z.of_nat len ≤ k < 0) then Some (Z.to_nat (Z.of_nat len + k))
  else None.

(** [range(n)] *)
Definition range (n : Z) : list nat := seq 0 (Z.to_nat n).

(** ** mido messages

    One constructor per message type of mido.  Channel voice messages carry
    a [channel]; system messages (among them [stop]) do not, and reading
    [msg.channel] on them raises [AttributeError].  Fields the port never
    reads on system messages are left out. *)
Module mido.

Inductive Message :=
| note_off (channel note velocity : Z)
| note_on (channel note velocity : Z)
| polytouch (channel note value : Z)
| control_change (channel control value : Z)
| program_change (channel program : Z)
| aftertouch (channel value : Z)
| pitchwheel (channel pitch : Z)
| sysex
| quarter_frame
| songpos
| song_select
| tune_request
| clock
| start
| continue
| stop
| active_sensing
| reset.

Definition type (msg : Message) : string :=
  match msg with
  | note_off _ _ _ => "note_off"
  | note_on _ _ _ => "note_on"
  | polytouch _ _ _ => "polytouch"
  | control_change _ _ _ => "control_change"
  | program_change _ _ => "program_change"
  | aftertouch _ _ => "aftertouch"
  | pitchwheel _ _ => "pitchwheel"
  | sysex => "sysex"
  | quarter_frame => "quarter_frame"
  | songpos => "songpos"
  | song_select => "song_select"
  | tune_request => "tune_request"
  | clock => "clock"
  | start => "start"
  | continue => "continue"
  | stop => "stop"
  | active_sensing => "active_sensing"
  | reset => "reset"
  end.

Definition channel (msg : Message) : option Z :=
  match msg with
  | note_off c _ _ | note_on c _ _ | polytouch c _ _ | control_change c _ _
  | program_change c _ | aftertouch c _ | pitchwheel c _ => Some c
  | _ => None
  end.

Definition note (msg : Message) : option Z :=
  match msg with
  | note_off _ n _ | note_on _ n _ | polytouch _ n _ => Some n
  | _ => None
  end.

Definition velocity (msg : Message) : option Z :=
  match msg with
  | note_off _ _ v | note_on _ _ v => Some v
  | _ => None
  end.

(** The ranges mido enforces when a message is built or parsed. *)
Definition valid (msg : Message) : bool :=
  match msg with
  | note_off c n v | note_on c n v | polytouch c n v | control_change c n v =>
      bool_decide (0 ≤ c < 16) && bool_decide (0 ≤ n < 128) && bool_decide (0 ≤ v < 128)
  | program_change c v | aftertouch c v =>
      bool_decide (0 ≤ c < 16) && bool_decide (0 ≤ v < 128)
  | pitchwheel c v => bool_decide (0 ≤ c < 16) && bool_decide (-8192 ≤ v ≤ 8191)
  | _ => true
  end.

End mido.

Import mido.

(** ** The port object and the commands it issues *)

(** A slot of [self.queue]: the dict [{'channel': ..., 'note': ...}]. *)
Record entry := { e_channel : Z; e_note : Z }.

#[global] Instance entry_eq_dec : EqDecision entry.
Proof. solve_decision. Defined.

(** The attributes of [steam_controller_mido_port].  The USB devices of
    [self.controllers] are opaque handles; a device is identified by its
    position in that list, so the list is kept by its length. *)
Record port := {
  controllers : nat;
  channels : Z;
  previous_notes : list Z;
  debug : bool;
  logic : string;
  queue : list (option entry)
}.

(** One call [steam_controller_play_note(self.controllers[k], haptic, note)]
    that reaches the USB transfer. *)
Record Cmd := { cmd_controller : nat; cmd_haptic : Z; cmd_note : Z }.

#[global] Instance Cmd_eq_dec : EqDecision Cmd.
Proof. solve_decision. Defined.

(** ** Methods as state transformers

    A method runs on the port, may mutate it, issues commands and either
    returns or raises.  Mutations and commands that happened before an
    exception stay in effect. *)
Definition M (A : Type) : Type := port → (exn + A) * port * list Cmd.

Definition ret {A} (a : A) : M A := λ self, (inr a, self, []).

Definition bind {A B} (k : A → M B) (c : M A) : M B := λ self,
  match c self with
  | (inl e, self', out) => (inl e, self', out)
  | (inr a, self', out) =>
      match k a self' with
      | (r, self'', out') => (r, self'', out ++ out')
      end
  end.

#[global] Instance M_ret : MRet M := @ret.
#[global] Instance M_bind : MBind M := @bind.

Definition raise {A} (e : exn) : M A := λ self, (inl e, self, []).
Definition get : M port := λ self, (inr self, self, []).
Definition put (self' : port) : M unit := λ _, (inr tt, self', []).
Definition emit (c : Cmd) : M unit := λ self, (inr tt, self, [c]).

(** [msg.attr] *)
Definition getattr (name : string) (field : option Z) : M Z :=
  match field with
  | Some v => ret v
  | None => raise (AttributeError name)
  end.

(** [self.controllers[k]] *)
Definition controllers_at (k : Z) : M nat :=
  self ← get;
  match py_index (controllers self) k with
  | Some i => ret i
  | None => raise IndexError
  end.

(** [self.queue[i]] and [self.queue[i] = v] for [i] drawn from
    [range(len(self.queue))]. *)
Definition queue_at (i : nat) : M (option entry) :=
  self ← get;
  match queue self !! i with
  | Some slot => ret slot
  | None => raise IndexError
  end.

Definition queue_set (i : nat) (v : option entry) : M unit :=
  self ← get;
  if bool_decide (i < length (queue self))%nat then
    put {| controllers := controllers self; channels := channels self;
           previous_notes := previous_notes self; debug := debug self;
           logic := logic self; queue := <[i := v]> (queue self) |}
  else raise IndexError.

(** A [for i in ...] loop whose body answers [true] when it executes
    [break]. *)
Fixpoint for_each (idx : list nat) (body : nat → M bool) : M unit :=
  match idx with
  | [] => ret tt
  | i :: rest => stop_now ← body i; if stop_now : bool then ret tt else for_each rest body
  end.

(** ** The functions of the script *)

(** [steam_controller_play_note]: [note_stop] is played as note 0 with
    duration 0; the frequency lookup raises for a note outside the table;
    a failed USB transfer is caught and printed, so the call returns. *)
Definition steam_controller_play_note (steam_controller : nat) (haptic note : Z) : M unit :=
  let note' := if bool_decide (note = note_stop) then 0 else note in
  match py_index midi_frequency_len note' with
  | Some _ => emit {| cmd_controller := steam_controller; cmd_haptic := haptic; cmd_note := note |}
  | None => raise IndexError
  end.

(** [display_played_notes] only prints; on integers it cannot raise. *)
Definition display_played_notes (channel note : Z) : M unit := ret tt.

(** [steam_controller_mido_port.__init__] for a list of [n] devices (a
    single device that is not a list is wrapped into a list, [n = 1]).
    The policy name is stored as given. *)
Definition __init__ (n : nat) (debug : bool) (logic : string) : port :=
  let channels := Z.of_nat n * 2 - 1 in
  {| controllers := n;
     channels := channels;
     previous_notes := replicate (Z.to_nat (channels + 1)) 0;
     debug := debug;
     logic := logic;
     queue := replicate (Z.to_nat (channels + 1)) None |}.

Definition single_voice (msg : Message) : M unit :=
  self ← get;
  c ← getattr "channel" (channel msg);
  if bool_decide (c ≤ channels self) then
    let controller := c / 2 in
    let haptic := c mod 2 in
    if String.eqb (type msg) "note_on" then
      v ← getattr "velocity" (velocity msg);
      if bool_decide (v = 0) then
        dev ← controllers_at controller;
        steam_controller_play_note dev haptic note_stop;;
        display_played_notes c note_stop
      else
        n ← getattr "note" (note msg);
        display_played_notes c n;;
        dev ← controllers_at controller;
        steam_controller_play_note dev haptic n
    else if String.eqb (type msg) "note_off" then
      dev ← controllers_at controller;
      steam_controller_play_note dev haptic note_stop;;
      display_played_notes c note_stop
    else ret tt
  else ret tt.

(** The bodies of the three [for] loops of the class, one iteration each;
    the answer is [true] when the iteration ends in [break]. *)

(** Lines 198-204 and, verbatim, 219-225: release slot [i] if it holds the
    pair of the message. *)
Definition release_step (msg : Message) (i : nat) : M bool :=
  slot ← queue_at i;
  match slot with
  | Some e =>
      c ← getattr "channel" (channel msg);
      if bool_decide (e_channel e = c) then
        n ← getattr "note" (note msg);
        if bool_decide (e_note e = n) then
          let controller := Z.of_nat i / 2 in
          let haptic := Z.of_nat i mod 2 in
          dev ← controllers_at controller;
          steam_controller_play_note dev haptic note_stop;;
          display_played_notes (Z.of_nat i) note_stop;;
          queue_set i None;;
          ret true
        else ret false
      else ret false
  | None => ret false
  end.

(** Lines 207-216: bind slot [i] if it is free. *)
Definition allocate_step (msg : Message) (i : nat) : M bool :=
  slot ← queue_at i;
  match slot with
  | None =>
      c ← getattr "channel" (channel msg);
      n ← getattr "note" (note msg);
      queue_set i (Some {| e_channel := c; e_note := n |});;
      let controller := Z.of_nat i / 2 in
      let haptic := Z.of_nat i mod 2 in
      dev ← controllers_at controller;
      n' ← getattr "note" (note msg);
      steam_controller_play_note dev haptic n';;
      display_played_notes (Z.of_nat i) n';;
      ret true
  | Some _ => ret false
  end.

(** Lines 230-231: silence channel [i]. *)
Definition stop_step (i : nat) : M bool :=
  let controller := Z.of_nat i / 2 in
  let haptic := Z.of_nat i mod 2 in
  dev ← controllers_at controller;
  steam_controller_play_note dev haptic note_stop;;
  ret false.

(** The release scan, written twice in [polyphony]: in the velocity-zero
    [note_on] branch and in the [note_off] branch. *)
Definition release_scan (msg : Message) : M unit :=
  self ← get;
  for_each (range (Z.of_nat (length (queue self)))) (release_step msg).

Definition polyphony (msg : Message) : M unit :=
  if String.eqb (type msg) "note_on" then
    v ← getattr "velocity" (velocity msg);
    if bool_decide (v = 0) then release_scan msg
    else
      self ← get;
      for_each (range (Z.of_nat (length (queue self)))) (allocate_step msg)
  else if String.eqb (type msg) "note_off" then release_scan msg
  else ret tt.

Definition _send (msg : Message) : M unit :=
  (if String.eqb (type msg) "stop" then
     self ← get;
     for_each (range (channels self + 1)) stop_step
   else ret tt);;
  self ← get;
  if String.eqb (logic self) "single_voice" then single_voice msg
  else if String.eqb (logic self) "polyphony" then polyphony msg
  else raise (ValueError (String.append "Invalid logic type: " (logic self))).

(** [mido.ports.BaseOutput.send] hands a copy of the message to [_send]. *)
Definition send (msg : Message) : M unit := _send msg.

(** What the iteration [for msg in mid.play()] delivers: the next message
    of the file, or a [KeyboardInterrupt] raised while it waits. *)
Inductive playback :=
| Yield (msg : Message)
| KeyboardInterrupt.

(** The [try] block of [play_song]: each message is sent in turn; a
    [KeyboardInterrupt] is answered by sending [stop], and the rest of the
    file is not played.  Any other exception leaves [play_song]. *)
Fixpoint play_loop (song : list playback) : M unit :=
  match song with
  | [] => ret tt
  | Yield msg :: rest => send msg;; play_loop rest
  | KeyboardInterrupt :: _ => send stop
  end.

(** [play_song(controllers, song, logic)]: the outcome of the whole call,
    with the port as it is left behind and every command issued. *)
Definition play_song (n : nat) (song : list playback) (logic : string)
  : (exn + unit) * port * list Cmd :=
  play_loop song (__init__ n false logic).

(** [send] over a list of messages, stopping at the first exception: the
    stream of events as the port sees it. *)
Fixpoint send_all (msgs : list Message) : M unit :=
  match msgs with
  | [] => ret tt
  | msg :: rest => send msg;; send_all rest
  end.

(** ** Vocabulary of the statements *)

(** The three components of the outcome of a call. *)
Definition result_of {A} (o : (exn + A) * port * list Cmd) : exn + A := o.1.1.
Definition port_of {A} (o : (exn + A) * port * list Cmd) : port := o.1.2.
Definition commands_of {A} (o : (exn + A) * port * list Cmd) : list Cmd := o.2.

(** The command [(i, note)] on physical channel [i]: device [i / 2],
    pad [i % 2]. *)
Definition command (i : nat) (note : Z) : Cmd :=
  {| cmd_controller := (i / 2)%nat; cmd_haptic := Z.of_nat i mod 2; cmd_note := note |}.

(** STOP on every physical channel of [n] devices, lowest index first. *)
Definition stop_all (n : nat) : list Cmd :=
  (λ i, command i note_stop) <$> seq 0 (2 * n).

(** The port with another queue. *)
Definition with_queue (self : port) (q : list (option entry)) : port :=
  {| controllers := controllers self; channels := channels self;
     previous_notes := previous_notes self; debug := debug self;
     logic := logic self; queue := q |}.

(** Ports as [__init__] builds them and [_send] keeps them: two channels
    and two slots per device. *)
Definition port_ok (self : port) : Prop :=
  channels self = 2 * Z.of_nat (controllers self) - 1 ∧
  length (queue self) = (2 * controllers self)%nat.

(** [self'] differs from [self] at most in the contents of [queue]: no
    other attribute is written and the queue keeps its length. *)
Definition frame (self self' : port) : Prop :=
  controllers self' = controllers self ∧ channels self' = channels self ∧
  previous_notes self' = previous_notes self ∧ debug self' = debug self ∧
  logic self' = logic self ∧ length (queue self') = length (queue self).

(** A computation that only ever rewrites slots of the queue. *)
Definition frames {A} (c : M A) : Prop := ∀ self, frame self (port_of (c self)).

(** The pairs bound in a queue, in slot order. *)
Definition bound (q : list (option entry)) : list entry := omap id q.

(** A slot is free, or holds the pair [(c, n)]. *)
Definition free_at (q : list (option entry)) (i : nat) : Prop := q !! i = Some None.
Definition holds_at (q : list (option entry)) (c n : Z) (i : nat) : Prop :=
  q !! i = Some (Some {| e_channel := c; e_note := n |}).

(** A [note_on] with non-zero velocity for a pair that some slot already
    holds. *)
Definition rebinds (msg : Message) (q : list (option entry)) : bool :=
  match msg with
  | note_on c n v =>
      bool_decide (v ≠ 0) && bool_decide (Some {| e_channel := c; e_note := n |} ∈ q)
  | _ => false
  end.

(** No message of the stream rebinds a pair that is bound when it arrives. *)
Fixpoint no_rebinding (msgs : list Message) (self : port) : bool :=
  match msgs with
  | [] => true
  | msg :: rest => negb (rebinds msg (queue self)) && no_rebinding rest (port_of (send msg self))
  end.

(** The notes commanded on physical channel [i], oldest first. *)
Definition notes_on (i : nat) (out : list Cmd) : list Z :=
  cmd_note <$> filter (λ c, cmd_controller c = (i / 2)%nat ∧ cmd_haptic c = Z.of_nat i mod 2) out.

(** How [_send] ends on a [stop] message, by policy name. *)
Definition stop_result (lg : string) : exn + unit :=
  if String.eqb lg "single_voice" then inl (AttributeError "channel")
  else if String.eqb lg "polyphony" then inr tt
  else inl (ValueError (String.append "Invalid logic type: " lg)).

(** The queue after [polyphony]: untouched, or one free slot bound to the
    pair of a [note_on] with non-zero velocity, or one slot cleared. *)
Definition polyphony_effect (msg : Message) (self self' : port) : Prop :=
  self' = self ∨
  (∃ i c n v, msg = note_on c n v ∧ v ≠ 0 ∧ free_at (queue self) i ∧
     self' = with_queue self (<[i := Some {| e_channel := c; e_note := n |}]> (queue self))) ∨
  (∃ i, self' = with_queue self (<[i := None]> (queue self))).

(** Messages that ask for silence: a note-off, a velocity-zero note-on, or
    the stop-all request. *)
Definition silences (msg : Message) : bool :=
  match msg with
  | note_off _ _ _ | stop => true
  | note_on _ _ v => bool_decide (v = 0)
  | _ => false
  end.


(** A computation that leaves the port exactly as it found it, however it
    ends. *)
Definition readonly {A} (c : M A) : Prop := ∀ self, port_of (c self) = self.

(** A [note_on] that asks for a sound: non-zero velocity and a note of the
    MIDI scale. *)
Definition sounding (msg : Message) : bool :=
  match msg with
  | note_on _ n v => bool_decide (0 < v) && bool_decide (0 ≤ n < 128)
  | _ => false
  end.

(** The pair a note message is about. *)
Definition pair_of (msg : Message) : entry :=
  {| e_channel := default 0 (channel msg); e_note := default 0 (note msg) |}.

(** ** The pulse command of [steam_controller_play_note]

    The arithmetic of the driver is Python float arithmetic, that is IEEE
    754 binary64 with round-to-nearest-even; it is embedded with Rocq's
    primitive floats, which are the same numbers with the same rounding,
    and the decimal literals of the table are read the same way (nearest
    double). *)
Module pulse.
Import PrimFloat.
#[local] Set Warnings "-inexact-float".

Definition steam_controller_magic_period_ratio : Z := 495483.

Definition midi_frequency : list float :=
  [
   8.1758; 8.66196; 9.17702; 9.72272; 10.3009; 10.9134; 11.5623; 12.2499;
   12.9783; 13.75; 14.5676; 15.4339; 16.3516; 17.3239; 18.354; 19.4454;
   20.6017; 21.8268; 23.1247; 24.4997; 25.9565; 27.5; 29.1352; 30.8677;
   32.7032; 34.6478; 36.7081; 38.8909; 41.2034; 43.6535; 46.2493; 48.9994;
   51.9131; 55; 58.2705; 61.7354; 65.4064; 69.2957; 73.4162; 77.7817;
   82.4069; 87.3071; 92.4986; 97.9989; 103.826; 110; 116.541; 123.471;
   130.813; 138.591; 146.832; 155.563; 164.814; 174.614; 184.997; 195.998;
   207.652; 220; 233.082; 246.942; 261.626; 277.183; 293.665; 311.127;
   329.628; 349.228; 369.994; 391.995; 415.305; 440; 466.164; 493.883;
   523.251; 554.365; 587.33; 622.254; 659.255; 698.456; 739.989; 783.991;
   830.609; 880; 932.328; 987.767; 1046.5; 1108.73; 1174.66; 1244.51;
   1318.51; 1396.91; 1479.98; 1567.98; 1661.22; 1760; 1864.66; 1975.53;
   2093; 2217.46; 2349.32; 2489.02; 2637.02; 2793.83; 2959.96; 3135.96;
   3322.44; 3520; 3729.31; 3951.07; 4186.01; 4434.92; 4698.64; 4978.03;
   5274.04; 5587.65; 5919.91; 6271.93; 6644.88; 7040; 7458.62; 7902.13;
   8372.02; 8869.84; 9397.27; 9956.06; 10548.1; 11175.3; 11839.8; 12543.9
  ]%float.

(** What the call does with the packet: it reaches [ctrl_transfer] with
    these bytes, or it raises before. *)
Inductive outcome :=
| Transfer (data_packet : list Z)
| Raises (exception : string).

(** A small non-negative Python int as a float (exact below 2^53). *)
Definition float_of_int (z : Z) : float := of_uint63 (Uint63.of_Z z).

(** [int(x)]: truncation towards zero; [None] for infinities and NaN,
    where Python raises. *)
Definition int_of_float (x : float) : option Z :=
  match FloatOps.Prim2SF x with
  | SpecFloat.S754_zero _ => Some 0
  | SpecFloat.S754_finite s m e =>
      let a := if bool_decide (0 ≤ e) then Z.pos m * 2 ^ e else Z.pos m / 2 ^ (- e) in
      Some (if s then - a else a)
  | _ => None
  end.

(** [(int(x % 256), int(x / 256))] for a float [x] that is finite and not
    negative, the only ones the driver computes: there [x % 256] is the
    exact remainder [fmod] and [x / 256] an exact scaling, so the two bytes
    are the remainder and the quotient of [int(x)] by 256. *)
Definition split_float (x : float) : option (Z * Z) :=
  if (x <? 0)%float then None
  else z ← int_of_float x; Some (z mod 256, z / 256).

(** The same for a non-negative int [r]: [r % 256] and [int(r / 256)]. *)
Definition split_int (r : Z) : Z * Z := (r mod 256, r / 256).

(** Lines 103-121 for the default duration, the only one the script ever
    passes: the two bytes of the pulse period and the two bytes of the
    repeat count. *)
Definition pulse_bytes (note : Z) : (Z * Z * (Z * Z)) + string :=
  let duration := duration_max in
  let '(note, duration) :=
    if bool_decide (note = note_stop) then (0, 0) else (note, duration) in
  match py_index midi_frequency_len note ≫= (midi_frequency !!.) with
  | None => inr "IndexError"
  | Some frequency =>
      if (frequency =? 0)%float then inr "ZeroDivisionError"
      else
        let period := (1 / frequency)%float in
        let period_command :=
          (period * float_of_int steam_controller_magic_period_ratio)%float in
        let repeat_count :=
          if bool_decide (0 ≤ duration) then
            if (period =? 0)%float then None
            else split_float (float_of_int duration / period)%float
          else Some (split_int 0x7FFF) in
        match split_float period_command, repeat_count with
        | Some p, Some r => inl (p, r)
        | _, _ => inr "ArithmeticError"
        end
  end.

(** [steam_controller_play_note(_, haptic, note)] down to the transfer:
    the 64-byte list with its nine assigned bytes, which
    [array.array('B', ...)] refuses when a byte is out of range. *)
Definition play_note_transfer (haptic note : Z) : outcome :=
  match pulse_bytes note with
  | inr exception => Raises exception
  | inl ((p_lo, p_hi), (r_lo, r_hi)) =>
      let data_packet :=
        [0x8f; 0x07; haptic; p_lo; p_hi; p_lo; p_hi; r_lo; r_hi] ++ replicate 55 0 in
      if forallb (λ b, bool_decide (0 ≤ b < 256)) data_packet
      then Transfer data_packet
      else Raises "OverflowError"
  end.

(** The 16-bit pulse period of a note, as the two period bytes spell it. *)
Definition period_word (note : Z) : option Z :=
  match pulse_bytes note with
  | inl ((p_lo, p_hi), _) => Some (p_hi * 256 + p_lo)
  | inr _ => None
  end.

(** Every index the frequency table accepts: -128, ..., 127. *)
Definition table_indices : list Z := (λ k, Z.of_nat k - 128) <$> seq 0 256.

(** The notes of the MIDI scale: 0, ..., 127. *)
Definition scale : list Z := Z.of_nat <$> seq 0 128.

(** The four pulse bytes of [note] are bytes, and the repeat count is 0
    for [note_stop] and 0x7FFF for any other note. *)
Definition pulse_ok (note : Z) : bool :=
  match pulse_bytes note with
  | inl ((p_lo, p_hi), (r_lo, r_hi)) =>
      forallb (λ b, bool_decide (0 ≤ b < 256)) [p_lo; p_hi; r_lo; r_hi] &&
      bool_decide ((r_lo, r_hi) = if bool_decide (note = note_stop) then (0, 0) else (0xFF, 0x7F))
  | inr _ => false
  end.

(** The pulse period of [a] is longer than that of every higher note of
    the scale. *)
Definition period_above (a : Z) : bool :=
  forallb (λ b,
    if bool_decide (a < b) then
      match period_word a, period_word b with
      | Some wa, Some wb => bool_decide (wb < wa)
      | _, _ => false
      end
    else true) scale.

End pulse.

(** ** The label of [display_played_notes]

    Lines 129-133: the text shown for a note.  [note % 12] is Python's
    floored remainder, always an index of [note_names]; [int(note / 12)]
    truncates the float quotient, which for the integers a note can be
    (far below 2^53) is the quotient rounded towards zero; [str] writes an
    integer in decimal, with a minus sign when negative. *)
Definition note_names : list string :=
  [" C"; "C#"; " D"; "D#"; " E"; " F"; "F#"; " G"; "G#"; " A"; "A#"; " B"].

Definition note_str (note : Z) : string :=
  if bool_decide (note = note_stop) then "OFF"
  else default "" (note_names !! Z.to_nat (note mod 12)) +:+ pretty (Z.quot note 12 - 1).

(** ** The monad *)

Lemma bind_inr {A B} (c : M A) (k : A → M B) self a self' out :
  c self = (inr a, self', out) →
  (c ≫= k) self = let '(r, s, o) := k a self' in (r, s, out ++ o).
Proof. intros H. unfold mbind, M_bind, bind. rewrite H. reflexivity. Qed.

Lemma bind_inl {A B} (c : M A) (k : A → M B) self e self' out :
  c self = (inl e, self', out) → (c ≫= k) self = (inl e, self', out).
Proof. intros H. unfold mbind, M_bind, bind. rewrite H. reflexivity. Qed.

Ltac unfold_M :=
  unfold mbind, M_bind, bind, mret, M_ret, ret, raise, get, put, emit in *.

(** ** Python arithmetic *)

Lemma py_index_nat (len i : nat) : (i < len)%nat → py_index len (Z.of_nat i) = Some i.
Proof.
  intros H. unfold py_index. rewrite bool_decide_eq_true_2 by lia.
  by rewrite Nat2Z.id.
Qed.

Lemma half_of_nat (i : nat) : Z.of_nat i / 2 = Z.of_nat (i / 2).
Proof. by rewrite Nat2Z.inj_div. Qed.

Lemma controllers_at_channel self (i : nat) :
  (i < 2 * controllers self)%nat →
  controllers_at (Z.of_nat i / 2) self = (inr (i / 2)%nat, self, []).
Proof.
  intros H. unfold controllers_at. unfold_M.
  rewrite half_of_nat, py_index_nat; [done |].
  apply Nat.Div0.div_lt_upper_bound. lia.
Qed.

Lemma play_note_stop dev haptic self :
  steam_controller_play_note dev haptic note_stop self =
  (inr tt, self, [{| cmd_controller := dev; cmd_haptic := haptic; cmd_note := note_stop |}]).
Proof. reflexivity. Qed.

Lemma play_note_valid dev haptic n self :
  0 ≤ n < 128 →
  steam_controller_play_note dev haptic n self =
  (inr tt, self, [{| cmd_controller := dev; cmd_haptic := haptic; cmd_note := n |}]).
Proof.
  intros H. unfold steam_controller_play_note.
  case_bool_decide.
  - unfold note_stop in *. lia.
  - unfold py_index, midi_frequency_len. by rewrite bool_decide_eq_true_2 by lia.
Qed.

(** ** Loops *)

Section for_each.
Context (body : nat → M bool).

Lemma for_each_break i rest self self' out :
  body i self = (inr true, self', out) →
  for_each (i :: rest) body self = (inr tt, self', out).
Proof.
  intros H. cbn [for_each]. rewrite (bind_inr _ _ _ _ _ _ H).
  cbn. by rewrite app_nil_r.
Qed.

Lemma for_each_raise i rest self e self' out :
  body i self = (inl e, self', out) →
  for_each (i :: rest) body self = (inl e, self', out).
Proof. intros H. cbn [for_each]. by rewrite (bind_inl _ _ _ _ _ _ H). Qed.

Lemma for_each_next i rest self :
  body i self = (inr false, self, []) →
  for_each (i :: rest) body self = for_each rest body self.
Proof.
  intros H. cbn [for_each]. rewrite (bind_inr _ _ _ _ _ _ H).
  by destruct (for_each rest body self) as [[r s] o].
Qed.

Lemma for_each_skip idx rest self :
  (∀ j, j ∈ idx → body j self = (inr false, self, [])) →
  for_each (idx ++ rest) body self = for_each rest body self.
Proof.
  induction idx as [| i idx IH]; intros H; [done |].
  cbn [app]. rewrite for_each_next.
  - apply IH. intros j Hj. apply H. by right.
  - apply H. by left.
Qed.

Lemma for_each_all_skip idx self :
  (∀ j, j ∈ idx → body j self = (inr false, self, [])) →
  for_each idx body self = (inr tt, self, []).
Proof.
  intros H. rewrite <- (app_nil_r idx). by rewrite for_each_skip.
Qed.

(** When every iteration either passes without any effect or ends the
    loop (by [break] or by raising), the loop as a whole has no effect
    or has the effect of the one iteration that ended it. *)
Lemma for_each_cases idx self :
  (∀ i, i ∈ idx →
        body i self = (inr false, self, []) ∨ result_of (body i self) ≠ inr false) →
  for_each idx body self = (inr tt, self, []) ∨
  ∃ i, i ∈ idx ∧ result_of (body i self) ≠ inr false ∧
       port_of (for_each idx body self) = port_of (body i self) ∧
       commands_of (for_each idx body self) = commands_of (body i self).
Proof.
  induction idx as [| i idx IH]; intros H; [by left |].
  destruct (H i) as [Hskip | Hend]; [by left | |].
  - rewrite for_each_next by done.
    destruct IH as [-> | (j & Hj & ? & ? & ?)].
    + intros j Hj. apply H. by right.
    + by left.
    + right. exists j. split; [by right | done].
  - right. exists i. split; [by left |]. split; [done |].
    destruct (body i self) as [[[e | []] s] o] eqn:Hb.
    + by rewrite (for_each_raise _ _ _ _ _ _ Hb).
    + by rewrite (for_each_break _ _ _ _ _ Hb).
    + by destruct Hend.
Qed.
End for_each.

Lemma seq_split_at (i len : nat) :
  (i < len)%nat → seq 0 len = seq 0 i ++ i :: seq (S i) (len - S i).
Proof.
  intros H. replace len with (i + S (len - S i))%nat at 1 by lia.
  by rewrite seq_app.
Qed.

(** ** What a call leaves untouched *)

Lemma frame_refl self : frame self self.
Proof. by repeat split. Qed.

Lemma frame_trans p1 p2 p3 : frame p1 p2 → frame p2 p3 → frame p1 p3.
Proof. unfold frame. intros; destruct_and!. repeat split; congruence. Qed.

Lemma frames_ret {A} (a : A) : frames (ret a).
Proof. intros self. apply frame_refl. Qed.

Lemma frames_mret {A} (a : A) : frames (mret a : M A).
Proof. intros self. apply frame_refl. Qed.

Lemma frames_raise {A} e : frames (raise e : M A).
Proof. intros self. apply frame_refl. Qed.

Lemma frames_get : frames get.
Proof. intros self. apply frame_refl. Qed.

Lemma frames_emit c : frames (emit c).
Proof. intros self. apply frame_refl. Qed.

Lemma frames_bind {A B} (c : M A) (k : A → M B) :
  frames c → (∀ a, frames (k a)) → frames (c ≫= k).
Proof.
  intros Hc Hk self. specialize (Hc self).
  unfold mbind, M_bind, bind, port_of in *.
  destruct (c self) as [[[e | a] s] o]; [done |].
  specialize (Hk a s). unfold port_of in Hk.
  destruct (k a s) as [[r s'] o']. cbn in *. by eapply frame_trans.
Qed.

Lemma frames_getattr name field : frames (getattr name field).
Proof. destruct field; [apply frames_ret | apply frames_raise]. Qed.

Lemma frames_controllers_at k : frames (controllers_at k).
Proof.
  apply frames_bind; [apply frames_get |]. intros self.
  destruct (py_index _ _); [apply frames_ret | apply frames_raise].
Qed.

Lemma frames_queue_at i : frames (queue_at i).
Proof.
  apply frames_bind; [apply frames_get |]. intros self.
  destruct (_ !! _); [apply frames_ret | apply frames_raise].
Qed.

Lemma frames_queue_set i v : frames (queue_set i v).
Proof.
  intros self. unfold queue_set, port_of. unfold_M.
  case_bool_decide; [| apply frame_refl].
  repeat split. cbn. apply length_insert.
Qed.

Lemma frames_play_note dev haptic n : frames (steam_controller_play_note dev haptic n).
Proof.
  unfold steam_controller_play_note.
  destruct (py_index _ _); [apply frames_emit | apply frames_raise].
Qed.

Lemma frames_display c n : frames (display_played_notes c n).
Proof. apply frames_ret. Qed.

Lemma frames_for_each idx body : (∀ i, frames (body i)) → frames (for_each idx body).
Proof.
  intros H. induction idx as [| i idx IH]; cbn [for_each]; [apply frames_ret |].
  apply frames_bind; [done |]. intros []; [apply frames_ret | done].
Qed.

Create HintDb frames.
#[local] Hint Resolve frames_ret frames_mret frames_raise frames_get frames_emit
  frames_getattr frames_controllers_at frames_queue_at frames_queue_set
  frames_play_note frames_display : frames.

Ltac frames_step :=
  match goal with
  | |- frames (_ ≫= _) => apply frames_bind; [| intros ?]
  | |- frames (for_each _ _) => apply frames_for_each; intros ?
  | |- frames (if ?b then _ else _) => destruct b
  | |- frames (match ?x with _ => _ end) => destruct x
  | |- frames _ => solve [auto with frames]
  end.

Lemma frames_release_scan msg : frames (release_scan msg).
Proof. unfold release_scan, release_step. repeat frames_step. Qed.

Lemma frames_single_voice msg : frames (single_voice msg).
Proof. unfold single_voice. repeat frames_step. Qed.

Lemma frames_polyphony msg : frames (polyphony msg).
Proof.
  unfold polyphony, allocate_step. repeat frames_step; try apply frames_release_scan.
Qed.

Lemma frames_send msg : frames (_send msg).
Proof.
  unfold _send, stop_step. repeat frames_step;
    first [apply frames_single_voice | apply frames_polyphony].
Qed.

Lemma frames_send_all msgs : frames (send_all msgs).
Proof.
  induction msgs as [| msg msgs IH]; cbn [send_all]; [apply frames_ret |].
  apply frames_bind; [apply frames_send | done].
Qed.

Lemma frame_port_ok self self' : frame self self' → port_ok self → port_ok self'.
Proof. unfold frame, port_ok. intros; destruct_and!. split; congruence. Qed.

Lemma init_port_ok n dbg lg : port_ok (__init__ n dbg lg).
Proof.
  split; cbn; [lia |]. rewrite length_replicate. lia.
Qed.

Lemma for_each_emit idx body self (f : nat → Cmd) :
  (∀ i, i ∈ idx → body i self = (inr false, self, [f i])) →
  for_each idx body self = (inr tt, self, f <$> idx).
Proof.
  induction idx as [| i idx IH]; intros H; [done |].
  cbn [for_each]. rewrite (bind_inr _ _ _ _ _ _ (H i ltac:(by left))).
  rewrite IH; [done |]. intros j Hj. apply H. by right.
Qed.

Lemma range_length (q : list (option entry)) : range (Z.of_nat (length q)) = seq 0 (length q).
Proof. unfold range. by rewrite Nat2Z.id. Qed.

Lemma single_voice_no_channel msg self :
  channel msg = None →
  single_voice msg self = (inl (AttributeError "channel"), self, []).
Proof. intros H. unfold single_voice. unfold_M. by rewrite H. Qed.

(** ** [_send] on a [stop] message *)

Lemma send_stop self :
  port_ok self →
  _send stop self = (stop_result (logic self), self, stop_all (controllers self)).
Proof.
  intros [Hch Hlen]. unfold _send. cbn [type String.eqb Ascii.eqb Bool.eqb].
  erewrite bind_inr; cycle 1.
  { erewrite bind_inr by reflexivity. cbn beta iota.
    erewrite (for_each_emit _ _ _ (λ i, command i note_stop)); [reflexivity |].
    intros i Hi. apply elem_of_seq in Hi. unfold stop_step.
    rewrite (bind_inr _ _ _ _ _ _ (controllers_at_channel self i ltac:(lia))).
    reflexivity. }
  unfold range. replace (Z.to_nat (channels self + 1)) with (2 * controllers self)%nat by lia.
  fold (stop_all (controllers self)).
  erewrite bind_inr by reflexivity.
  unfold stop_result.
  destruct (String.eqb (logic self) "single_voice").
  { rewrite (single_voice_no_channel stop self eq_refl). cbn. by rewrite ?app_nil_r. }
  destruct (String.eqb (logic self) "polyphony").
  - change (polyphony stop self) with (@inr exn unit tt, self, @nil Cmd).
    cbn. by rewrite ?app_nil_r.
  - unfold raise. cbn. by rewrite ?app_nil_r.
Qed.

(** ** [_send] on any other message: plain dispatch on [self.logic] *)

Lemma send_dispatch msg self :
  type msg ≠ "stop" →
  _send msg self =
  if String.eqb (logic self) "single_voice" then single_voice msg self
  else if String.eqb (logic self) "polyphony" then polyphony msg self
  else (inl (ValueError (String.append "Invalid logic type: " (logic self))), self, []).
Proof.
  intros H. unfold _send. apply String.eqb_neq in H. rewrite H.
  unfold_M. cbn.
  destruct (String.eqb (logic self) "single_voice").
  { by destruct (single_voice msg self) as [[r s] o]. }
  destruct (String.eqb (logic self) "polyphony"); [| done].
  by destruct (polyphony msg self) as [[r s] o].
Qed.

(** ** The two scans of [polyphony] *)

Lemma lookup_occupied (q : list (option entry)) j :
  (j < length q)%nat → ¬ free_at q j → ∃ e, q !! j = Some (Some e).
Proof.
  intros Hj Hfree. destruct (lookup_lt_is_Some_2 q j Hj) as [[e |] He]; [by exists e |].
  by destruct Hfree.
Qed.

Lemma polyphony_note_on_free self c n v i :
  port_ok self → v ≠ 0 → 0 ≤ n < 128 →
  free_at (queue self) i → (∀ j, (j < i)%nat → ¬ free_at (queue self) j) →
  polyphony (note_on c n v) self =
  (inr tt, with_queue self (<[i := Some {| e_channel := c; e_note := n |}]> (queue self)),
   [command i n]).
Proof.
  intros [Hch Hlen] Hv Hn Hi Hbefore.
  assert (i < length (queue self))%nat as Hlt by (by eapply lookup_lt_Some).
  unfold polyphony. cbn [type String.eqb Ascii.eqb Bool.eqb velocity getattr].
  erewrite bind_inr by reflexivity. rewrite bool_decide_eq_false_2 by done.
  erewrite bind_inr by reflexivity. cbn beta iota.
  rewrite range_length, (seq_split_at i) by done.
  rewrite for_each_skip.
  - erewrite for_each_break; [done |].
    unfold allocate_step, release_step, queue_at, queue_set. unfold_M. rewrite Hi. cbn.
    rewrite bool_decide_eq_true_2 by done.
    rewrite (controllers_at_channel _ i) by (cbn; lia).
    rewrite (play_note_valid _ _ n) by done. reflexivity.
  - intros j Hj. apply elem_of_seq in Hj.
    destruct (lookup_occupied (queue self) j) as [e He]; [lia | apply Hbefore; lia |].
    unfold allocate_step, release_step, queue_at. unfold_M. by rewrite He.
Qed.

Lemma polyphony_note_on_full self c n v :
  v ≠ 0 → (∀ i, ¬ free_at (queue self) i) →
  polyphony (note_on c n v) self = (inr tt, self, []).
Proof.
  intros Hv Hfull.
  unfold polyphony. cbn [type String.eqb Ascii.eqb Bool.eqb velocity getattr].
  erewrite bind_inr by reflexivity. rewrite bool_decide_eq_false_2 by done.
  erewrite bind_inr by reflexivity. cbn beta iota.
  rewrite range_length, for_each_all_skip; [done |].
  intros j Hj. apply elem_of_seq in Hj.
  destruct (lookup_occupied (queue self) j) as [e He]; [lia | apply Hfull |].
  unfold allocate_step, release_step, queue_at. unfold_M. by rewrite He.
Qed.

(** One iteration of the release scan on a slot that does not hold the
    pair of the message. *)
Lemma release_body_pass (q : list (option entry)) c n j :
  (j < length q)%nat → ¬ holds_at q c n j →
  match q !! j with
  | Some (Some e) => e_channel e ≠ c ∨ e_note e ≠ n
  | Some None => True
  | None => False
  end.
Proof.
  intros Hj Hne. destruct (lookup_lt_is_Some_2 q j Hj) as [[[c' n'] |] He];
    rewrite He; [| done].
  cbn. destruct (decide (c' = c)) as [-> |]; [| by left].
  destruct (decide (n' = n)) as [-> |]; [| by right].
  by destruct Hne.
Qed.

Lemma release_scan_found self msg c n i :
  port_ok self → channel msg = Some c → note msg = Some n →
  holds_at (queue self) c n i → (∀ j, (j < i)%nat → ¬ holds_at (queue self) c n j) →
  release_scan msg self =
  (inr tt, with_queue self (<[i := None]> (queue self)), [command i note_stop]).
Proof.
  intros [Hch Hlen] Hc Hn Hi Hbefore.
  assert (i < length (queue self))%nat as Hlt by (by eapply lookup_lt_Some).
  unfold release_scan. erewrite bind_inr by reflexivity. cbn beta iota.
  rewrite range_length, (seq_split_at i) by done.
  rewrite for_each_skip.
  - erewrite for_each_break; [done |].
    unfold allocate_step, release_step, queue_at, queue_set. unfold_M. rewrite Hi, Hc, Hn. cbn.
    rewrite !bool_decide_eq_true_2 by done.
    rewrite (controllers_at_channel _ i) by lia. rewrite play_note_stop.
    cbn -[Nat.div Z.modulo]. by rewrite bool_decide_eq_true_2 by done.
  - intros j Hj. apply elem_of_seq in Hj.
    pose proof (release_body_pass (queue self) c n j ltac:(lia) (Hbefore j ltac:(lia))) as Hp.
    unfold allocate_step, release_step, queue_at. unfold_M. rewrite Hc, Hn.
    destruct (queue self !! j) as [[e |] |]; [| done | done]. cbn.
    case_bool_decide; [| done]. case_bool_decide; [| done]. by destruct Hp.
Qed.

Lemma release_scan_missing self msg c n :
  channel msg = Some c → note msg = Some n →
  (∀ i, ¬ holds_at (queue self) c n i) →
  release_scan msg self = (inr tt, self, []).
Proof.
  intros Hc Hn Hnone.
  unfold release_scan. erewrite bind_inr by reflexivity. cbn beta iota.
  rewrite range_length, for_each_all_skip; [done |].
  intros j Hj. apply elem_of_seq in Hj.
  pose proof (release_body_pass (queue self) c n j ltac:(lia) (Hnone j)) as Hp.
  unfold allocate_step, release_step, queue_at. unfold_M. rewrite Hc, Hn.
  destruct (queue self !! j) as [[e |] |]; [| done | done]. cbn.
  case_bool_decide; [| done]. case_bool_decide; [| done]. by destruct Hp.
Qed.

Lemma polyphony_release msg self c n :
  (∃ v, msg = note_off c n v) ∨ msg = note_on c n 0 →
  polyphony msg self = release_scan msg self.
Proof.
  intros [[v ->] | ->]; unfold polyphony;
    cbn [type String.eqb Ascii.eqb Bool.eqb velocity getattr]; [done |].
  erewrite bind_inr by reflexivity. rewrite bool_decide_eq_true_2 by done.
  by destruct (release_scan (note_on c n 0) self) as [[r s] o].
Qed.

(** ** What [polyphony] can do to the queue, whatever the outcome *)

Lemma allocate_step_cases msg i self :
  allocate_step msg i self = (inr false, self, []) ∨
  (result_of (allocate_step msg i self) ≠ inr false ∧
   (port_of (allocate_step msg i self) = self ∨
    ∃ c n, channel msg = Some c ∧ note msg = Some n ∧ free_at (queue self) i ∧
           port_of (allocate_step msg i self) =
           with_queue self (<[i := Some {| e_channel := c; e_note := n |}]> (queue self)))).
Proof.
  unfold allocate_step, queue_at, queue_set, controllers_at,
    steam_controller_play_note, display_played_notes, getattr, result_of, port_of.
  unfold_M.
  destruct (queue self !! i) as [[e |] |] eqn:Hi; cbn; [by left | | right; by auto].
  right.
  destruct (channel msg) as [c |]; cbn; [| by auto].
  destruct (note msg) as [n |]; cbn; [| by auto].
  rewrite bool_decide_eq_true_2 by (by eapply lookup_lt_Some). cbn.
  assert (∃ c0 n0, Some c = Some c0 ∧ Some n = Some n0 ∧ free_at (queue self) i ∧
            with_queue self (<[i := Some {| e_channel := c; e_note := n |}]> (queue self)) =
            with_queue self (<[i := Some {| e_channel := c0; e_note := n0 |}]> (queue self)))
    as Hbound by (by exists c, n).
  destruct (py_index (controllers self) _); cbn; [| by auto].
  destruct (py_index midi_frequency_len _); cbn; by auto.
Qed.

Lemma release_step_cases msg i self :
  release_step msg i self = (inr false, self, []) ∨
  (result_of (release_step msg i self) ≠ inr false ∧
   (port_of (release_step msg i self) = self ∨
    port_of (release_step msg i self) = with_queue self (<[i := None]> (queue self)))).
Proof.
  unfold release_step, queue_at, queue_set, controllers_at,
    display_played_notes, getattr, result_of, port_of.
  unfold_M.
  destruct (queue self !! i) as [[e |] |] eqn:Hi; cbn; [| by left | right; by auto].
  destruct (channel msg) as [c |]; cbn; [| right; by auto].
  case_bool_decide; cbn; [| by left].
  destruct (note msg) as [n |]; cbn; [| right; by auto].
  case_bool_decide; cbn; [| by left].
  right.
  destruct (py_index (controllers self) _); cbn; [| by auto].
  rewrite play_note_stop. cbn.
  rewrite bool_decide_eq_true_2 by (by eapply lookup_lt_Some). cbn. by auto.
Qed.

Lemma release_scan_effect msg self :
  port_of (release_scan msg self) = self ∨
  ∃ i, port_of (release_scan msg self) = with_queue self (<[i := None]> (queue self)).
Proof.
  unfold release_scan. erewrite bind_inr by reflexivity. cbn beta iota.
  set (idx := range _).
  destruct (for_each_cases (release_step msg) idx self) as [-> | (i & _ & _ & Hport & _)].
  - intros i _. destruct (release_step_cases msg i self) as [? | [? _]]; by auto.
  - by left.
  - destruct (for_each idx (release_step msg) self) as [[r s] o].
    change (port_of (r, s, o)) with s in *. subst s.
    destruct (release_step_cases msg i self) as [-> | [_ [-> | ->]]]; cbn; by eauto.
Qed.

Lemma polyphony_has_effect msg self :
  polyphony_effect msg self (port_of (polyphony msg self)).
Proof.
  unfold polyphony_effect.
  assert (port_of (release_scan msg self) = self ∨
          (∃ i c n v, msg = note_on c n v ∧ v ≠ 0 ∧ free_at (queue self) i ∧
             port_of (release_scan msg self) =
             with_queue self (<[i := Some {| e_channel := c; e_note := n |}]> (queue self))) ∨
          (∃ i, port_of (release_scan msg self) =
                with_queue self (<[i := None]> (queue self)))) as Hrel.
  { destruct (release_scan_effect msg self) as [-> | [i ->]]; by eauto. }
  unfold polyphony.
  destruct msg as [c n v | c n v | | | | | | | | | | | | | | | |];
    cbn [type String.eqb Ascii.eqb Bool.eqb velocity getattr];
    try (by left); [done |].
  erewrite bind_inr by reflexivity. case_bool_decide as Hv.
  { by destruct (release_scan (note_on c n v) self) as [[r s] o]. }
  erewrite bind_inr by reflexivity. cbn beta iota.
  set (idx := range _).
  destruct (for_each_cases (allocate_step (note_on c n v)) idx self)
    as [-> | (i & _ & _ & Hport & _)].
  - intros i _. destruct (allocate_step_cases (note_on c n v) i self) as [? | [? _]]; by auto.
  - by left.
  - destruct (for_each idx (allocate_step (note_on c n v)) self) as [[r s] o].
    change (port_of (r, s, o)) with s in *. subst s.
    destruct (allocate_step_cases (note_on c n v) i self)
      as [-> | [_ [-> | (c' & n' & [= <-] & [= <-] & Hfree & ->)]]]; cbn; [by left | by left |].
    right; left. by exists i, c, n, v.
Qed.

Lemma send_polyphony_effect msg self :
  port_ok self → logic self = "polyphony" →
  polyphony_effect msg self (port_of (_send msg self)).
Proof.
  intros Hok Hlg. destruct (decide (type msg = "stop")) as [Hstop | Hstop].
  - destruct msg; try discriminate Hstop. rewrite send_stop by done. by left.
  - rewrite send_dispatch, Hlg by done. cbn. apply polyphony_has_effect.
Qed.

(** ** Pairs bound in a queue *)

Lemma bound_cons x (q : list (option entry)) :
  bound (x :: q) = match x with Some e => e :: bound q | None => bound q end.
Proof. by destruct x. Qed.

Lemma elem_of_bound e (q : list (option entry)) : e ∈ bound q ↔ Some e ∈ q.
Proof.
  unfold bound. rewrite list_elem_of_omap. split.
  - by intros ([x |] & Hx & [= ->]).
  - intros H. by exists (Some e).
Qed.

Lemma bound_length (q : list (option entry)) : (length (bound q) ≤ length q)%nat.
Proof.
  induction q as [| [e |] q IH]; rewrite ?bound_cons; cbn; [done | lia | lia].
Qed.

Lemma bound_release_elem x i (q : list (option entry)) :
  x ∈ bound (<[i := None]> q) → x ∈ bound q.
Proof.
  revert i. induction q as [| y q IH]; intros [| i]; cbn [insert list_insert];
    rewrite ?bound_cons; try done.
  - destruct y; [by right | done].
  - destruct y as [e |]; [| by apply IH].
    intros [-> | H]%elem_of_cons; [by left | right; by eapply IH].
Qed.

Lemma bound_release_NoDup i (q : list (option entry)) :
  NoDup (bound q) → NoDup (bound (<[i := None]> q)).
Proof.
  revert i. induction q as [| y q IH]; intros [| i]; cbn [insert list_insert];
    rewrite ?bound_cons; try done.
  - destruct y; [by intros ?%NoDup_cons_1_2 | done].
  - destruct y as [e |]; [| by apply IH].
    intros [Hnin Hnd]%NoDup_cons. apply NoDup_cons. split; [| by apply IH].
    intros Hin. by apply Hnin, (bound_release_elem _ i).
Qed.

Lemma bound_allocate_elem x e i (q : list (option entry)) :
  x ∈ bound (<[i := Some e]> q) → x = e ∨ x ∈ bound q.
Proof.
  revert i. induction q as [| y q IH]; intros [| i]; cbn [insert list_insert];
    rewrite ?bound_cons; try (by right).
  - intros [-> | H]%elem_of_cons; [by left | right].
    destruct y; [by right | done].
  - destruct y as [e' |]; [| by apply IH].
    intros [-> | H]%elem_of_cons; [right; by left |].
    destruct (IH _ H); [by left | right; by right].
Qed.

Lemma bound_allocate_NoDup e i (q : list (option entry)) :
  free_at q i → e ∉ bound q → NoDup (bound q) → NoDup (bound (<[i := Some e]> q)).
Proof.
  unfold free_at. revert i. induction q as [| y q IH]; intros [| i]; cbn [insert list_insert];
    rewrite ?bound_cons; try done.
  - intros [= ->] Hnin Hnd. by apply NoDup_cons.
  - cbn. intros Hi. destruct y as [e' |]; [| by apply IH].
    intros Hnin [Hnin' Hnd]%NoDup_cons. apply NoDup_cons. split.
    + intros [-> | H]%bound_allocate_elem; [apply Hnin; by left | done].
    + apply IH; [done | | done]. intros H. apply Hnin. by right.
Qed.

Lemma polyphony_effect_NoDup msg self self' :
  polyphony_effect msg self self' → rebinds msg (queue self) = false →
  NoDup (bound (queue self)) → NoDup (bound (queue self')).
Proof.
  intros [-> | [(i & c & n & v & -> & Hv & Hfree & ->) | [i ->]]] Hfresh Hnd; [done | |].
  - cbn. apply bound_allocate_NoDup; [done | | done].
    rewrite elem_of_bound. cbn in Hfresh.
    rewrite bool_decide_eq_true_2 in Hfresh by done.
    by apply bool_decide_eq_false_1 in Hfresh.
  - cbn. by apply bound_release_NoDup.
Qed.

(** ** [single_voice] *)

Lemma single_voice_out_of_range msg c self :
  channel msg = Some c → channels self < c →
  single_voice msg self = (inr tt, self, []).
Proof.
  intros Hc Hgt. unfold single_voice. unfold_M. rewrite Hc. cbn.
  by rewrite bool_decide_eq_false_2 by lia.
Qed.

Lemma controllers_at_in_range self c :
  port_ok self → 0 ≤ c ≤ channels self →
  controllers_at (c / 2) self = (inr (Z.to_nat c / 2)%nat, self, []).
Proof.
  intros [Hch Hlen] Hc. rewrite <- (Z2Nat.id c) at 1 by lia.
  apply controllers_at_channel. lia.
Qed.

Lemma single_voice_silence msg c self :
  port_ok self → 0 ≤ c ≤ channels self →
  (∃ n v, msg = note_off c n v) ∨ (∃ n, msg = note_on c n 0) →
  single_voice msg self = (inr tt, self, [command (Z.to_nat c) note_stop]).
Proof.
  intros Hok Hc Hmsg. unfold single_voice, command.
  rewrite Z2Nat.id by lia.
  destruct Hmsg as [(n & v & ->) | (n & ->)];
    cbn [channel type velocity getattr String.eqb Ascii.eqb Bool.eqb];
    unfold_M; cbn -[Nat.div Z.modulo Z.div controllers_at steam_controller_play_note];
    rewrite !bool_decide_eq_true_2 by lia;
    rewrite controllers_at_in_range by done;
    by rewrite play_note_stop.
Qed.

Lemma single_voice_note_on c n v self :
  port_ok self → 0 ≤ c ≤ channels self → v ≠ 0 → 0 ≤ n < 128 →
  single_voice (note_on c n v) self = (inr tt, self, [command (Z.to_nat c) n]).
Proof.
  intros Hok Hc Hv Hn. unfold single_voice, command.
  rewrite Z2Nat.id by lia.
  cbn [channel type velocity note getattr String.eqb Ascii.eqb Bool.eqb].
  unfold_M. cbn -[Nat.div Z.modulo Z.div controllers_at steam_controller_play_note].
  rewrite bool_decide_eq_true_2 by lia.
  rewrite bool_decide_eq_false_2 by done.
  cbn -[Nat.div Z.modulo Z.div controllers_at steam_controller_play_note].
  rewrite controllers_at_in_range by done.
  by rewrite play_note_valid by done.
Qed.

(** ** Commands that are not STOP *)

Lemma allocate_step_commands c n v i self cmd :
  n ≠ note_stop →
  cmd ∈ commands_of (allocate_step (note_on c n v) i self) → cmd_note cmd = n.
Proof.
  intros Hn. unfold allocate_step, queue_at, queue_set, controllers_at,
    steam_controller_play_note, display_played_notes, getattr, commands_of.
  unfold_M. cbn.
  destruct (queue self !! i) as [[e |] |]; cbn; [by intros ?%elem_of_nil | | by intros ?%elem_of_nil].
  case_bool_decide; cbn; [| by intros ?%elem_of_nil].
  destruct (py_index (controllers self) _); cbn; [| by intros ?%elem_of_nil].
  rewrite bool_decide_eq_false_2 by done.
  destruct (py_index midi_frequency_len n); cbn; [| by intros ?%elem_of_nil].
  by intros ->%list_elem_of_singleton.
Qed.

Lemma polyphony_no_stop_command msg self cmd :
  valid msg = true → silences msg = false →
  cmd ∈ commands_of (polyphony msg self) → cmd_note cmd ≠ note_stop.
Proof.
  intros Hvalid Hsil. unfold polyphony.
  destruct msg as [c n v | c n v | | | | | | | | | | | | | | | |];
    cbn [type String.eqb Ascii.eqb Bool.eqb velocity getattr];
    try (by intros ?%elem_of_nil); [done |].
  cbn in Hsil, Hvalid. erewrite bind_inr by reflexivity. rewrite Hsil.
  erewrite bind_inr by reflexivity. cbn beta iota.
  set (idx := range _).
  assert (n ≠ note_stop) as Hn.
  { apply andb_prop in Hvalid as [[_ Hn%bool_decide_eq_true]%andb_prop _].
    unfold note_stop. lia. }
  destruct (for_each_cases (allocate_step (note_on c n v)) idx self)
    as [-> | (i & _ & _ & _ & Hout)].
  - intros i _. destruct (allocate_step_cases (note_on c n v) i self) as [? | [? _]]; by auto.
  - by intros ?%elem_of_nil.
  - destruct (for_each idx (allocate_step (note_on c n v)) self) as [[r s] o].
    change (commands_of (r, s, o)) with o in *. subst o.
    cbn. intros Hin%allocate_step_commands; [| done]. congruence.
Qed.

Lemma single_voice_no_stop_command msg self cmd :
  valid msg = true → silences msg = false →
  cmd ∈ commands_of (single_voice msg self) → cmd_note cmd ≠ note_stop.
Proof.
  intros Hvalid Hsil.
  unfold single_voice, controllers_at, steam_controller_play_note,
    display_played_notes, getattr, commands_of.
  unfold_M.
  destruct msg as [c n v | c n v | | | | | | | | | | | | | | | |];
    cbn [type String.eqb Ascii.eqb Bool.eqb velocity channel note];
    try (cbn; case_bool_decide; cbn; by intros ?%elem_of_nil);
    try (by intros ?%elem_of_nil); [done |].
  cbn in Hsil, Hvalid. cbn. rewrite Hsil.
  assert (n ≠ note_stop) as Hn.
  { apply andb_prop in Hvalid as [[_ Hn%bool_decide_eq_true]%andb_prop _].
    unfold note_stop. lia. }
  rewrite (bool_decide_eq_false_2 (n = note_stop)) by done.
  destruct (bool_decide (c ≤ channels self)); cbn; [| by intros ?%elem_of_nil].
  destruct (py_index (controllers self) _); cbn; [| by intros ?%elem_of_nil].
  destruct (py_index midi_frequency_len n); cbn; [| by intros ?%elem_of_nil].
  by intros ->%list_elem_of_singleton.
Qed.

Lemma send_no_stop_command msg self cmd :
  valid msg = true → silences msg = false →
  cmd ∈ commands_of (_send msg self) → cmd_note cmd ≠ note_stop.
Proof.
  intros Hvalid Hsil. rewrite send_dispatch by (by destruct msg).
  destruct (String.eqb (logic self) "single_voice");
    [by apply single_voice_no_stop_command |].
  destruct (String.eqb (logic self) "polyphony");
    [by apply polyphony_no_stop_command |].
  by intros ?%elem_of_nil.
Qed.

(** ** Streams of messages *)

Lemma send_all_cons msg rest self :
  send_all (msg :: rest) self =
  match send msg self with
  | (inl e, self', out) => (inl e, self', out)
  | (inr _, self', out) =>
      let '(r, self'', out') := send_all rest self' in (r, self'', out ++ out')
  end.
Proof. reflexivity. Qed.

Lemma play_loop_yield msgs : play_loop (Yield <$> msgs) = send_all msgs.
Proof. induction msgs as [| msg msgs IH]; cbn; [done | by rewrite IH]. Qed.

Lemma play_loop_interrupted msgs rest self self' out :
  port_ok self → send_all msgs self = (inr tt, self', out) →
  play_loop ((Yield <$> msgs) ++ KeyboardInterrupt :: rest) self =
  (stop_result (logic self), self', out ++ stop_all (controllers self)).
Proof.
  revert self out. induction msgs as [| msg msgs IH]; intros self out Hok.
  - intros [= <- <-]. cbn [fmap list_fmap app play_loop]. unfold send.
    by rewrite send_stop.
  - rewrite send_all_cons. cbn [fmap list_fmap app play_loop].
    pose proof (frames_send msg self) as Hframe. unfold send in *.
    unfold mbind, M_bind, bind.
    destruct (_send msg self) as [[[e | []] s] o]; [done |].
    change (port_of (inr (), s, o)) with s in Hframe.
    destruct (send_all msgs s) as [[r s'] o'] eqn:Hrest. intros [= -> -> <-].
    rewrite (IH s o') by (by eauto using frame_port_ok).
    destruct Hframe as (-> & _ & _ & _ & -> & _). by rewrite app_assoc.
Qed.

Lemma send_all_no_stop_command msgs self cmd :
  (∀ msg, msg ∈ msgs → valid msg = true ∧ silences msg = false) →
  cmd ∈ commands_of (send_all msgs self) → cmd_note cmd ≠ note_stop.
Proof.
  revert self. induction msgs as [| msg msgs IH]; intros self Hmsgs.
  { by intros ?%elem_of_nil. }
  rewrite send_all_cons. unfold send.
  destruct (Hmsgs msg ltac:(by left)) as [Hvalid Hsil].
  pose proof (send_no_stop_command msg self cmd Hvalid Hsil) as Hhere.
  destruct (_send msg self) as [[[e | []] s] o]; [done |].
  specialize (IH s ltac:(intros m Hm; apply Hmsgs; by right)).
  destruct (send_all msgs s) as [[r s'] o'].
  unfold commands_of in *. cbn in *.
  intros [? | ?]%elem_of_app; by auto.
Qed.

Lemma send_all_NoDup msgs self :
  port_ok self → logic self = "polyphony" →
  no_rebinding msgs self = true →
  NoDup (bound (queue self)) → NoDup (bound (queue (port_of (send_all msgs self)))).
Proof.
  revert self. induction msgs as [| msg msgs IH]; intros self Hok Hlg Hfresh Hnd; [done |].
  cbn [no_rebinding] in Hfresh. apply andb_prop in Hfresh as [Hmsg Hrest].
  apply negb_true_iff in Hmsg.
  pose proof (send_polyphony_effect msg self Hok Hlg) as Heff.
  pose proof (frames_send msg self) as Hframe.
  rewrite send_all_cons. unfold send in *.
  destruct (_send msg self) as [[[e | []] s] o];
    change (port_of (_, s, o)) with s in *.
  - by eapply polyphony_effect_NoDup.
  - specialize (IH s).
    destruct (send_all msgs s) as [[r s'] o'].
    change (port_of (r, s', o ++ o')) with s'. change (port_of (r, s', o')) with s' in IH.
    apply IH; [by eapply frame_port_ok | | done | by eapply polyphony_effect_NoDup].
    destruct Hframe as (_ & _ & _ & _ & -> & _). done.
Qed.

(** * Properties of the allocation engine *)

(** ** Polyphony: the pool invariant *)

(** C1, as stated, fails: [polyphony] binds the first free slot without
    looking for the pair among the occupied ones, so two identical
    note-ons on a pool of two leave slots 0 and 1 holding the same pair
    (channel 0, note 60). *)
Lemma polyphony_binds_pair_twice :
  let self := port_of (send_all [note_on 0 60 100; note_on 0 60 100]
                         (__init__ 1 false "polyphony")) in
  holds_at (queue self) 0 60 0 ∧ holds_at (queue self) 0 60 1 ∧
  ¬ NoDup (bound (queue self)).
Proof.
  cbn. repeat split. intros Hnd. apply NoDup_cons_1_1 in Hnd.
  apply Hnd. by left.
Qed.

(** C1, amended: for every sequence of events sent to a polyphony port
    built for [n] devices, the queue keeps its [2 * n] slots, so at most
    [2 * n] pairs are bound at any time; and no two occupied slots hold
    the same pair as long as no note-on with non-zero velocity arrives for
    a pair that is bound at that moment. *)
Theorem polyphony_pool_invariant (n : nat) (dbg : bool) (msgs : list Message) :
  let self := port_of (send_all msgs (__init__ n dbg "polyphony")) in
  length (queue self) = (2 * n)%nat ∧
  (length (bound (queue self)) ≤ 2 * n)%nat ∧
  (no_rebinding msgs (__init__ n dbg "polyphony") = true → NoDup (bound (queue self))).
Proof.
  intros self.
  assert (length (queue self) = (2 * n)%nat) as Hlen.
  { destruct (init_port_ok n dbg "polyphony") as [_ Hinit].
    destruct (frames_send_all msgs (__init__ n dbg "polyphony")) as (_ & _ & _ & _ & _ & Hq).
    unfold self. by rewrite Hq. }
  split; [done |]. split.
  - rewrite <- Hlen. apply bound_length.
  - intros Hfresh. apply send_all_NoDup; [apply init_port_ok | done | done |].
    cbn. unfold bound. clear. induction (Z.to_nat _); [constructor | done].
Qed.

Lemma polyphony_pool_invariant_witness :
  NoDup (bound (queue (port_of
    (send_all [note_on 0 60 100; note_off 0 60 64; note_on 0 60 100]
       (__init__ 1 false "polyphony"))))).
Proof.
  apply (polyphony_pool_invariant 1 false
           [note_on 0 60 100; note_off 0 60 64; note_on 0 60 100]).
  reflexivity.
Defined.

(** ** File playback *)

(** C2, as stated, fails: [play_song] sends [stop] only in its
    [except KeyboardInterrupt] handler.  A file holding one note-on ends
    normally with that note as the last command on channel 0 and with no
    command at all on channel 1. *)
Lemma play_song_normal_end_sends_no_stop :
  let end_ := play_song 1 [Yield (note_on 0 60 100)] "single_voice" in
  result_of end_ = inr tt ∧
  commands_of end_ = [command 0 60] ∧
  last (notes_on 0 (commands_of end_)) = Some 60 ∧
  last (notes_on 1 (commands_of end_)) = None ∧
  ¬ (∀ i, (i < 2)%nat → last (notes_on i (commands_of end_)) = Some note_stop).
Proof.
  repeat split. intros H. specialize (H 0%nat ltac:(lia)). discriminate H.
Qed.

(** C2, amended: when the file is exhausted normally [play_song] sends
    nothing after the file's last message, so its outcome is that of the
    file's messages alone, and over valid messages none of which asks for
    silence it issues no STOP at all; when playback is cancelled by a
    keyboard interrupt, [play_song] sends one [stop] message, whose
    handling issues STOP on every physical channel, lowest index first, as
    the last commands of the run. *)
Theorem play_song_stops_on_interrupt_only (n : nat) (lg : string)
    (msgs : list Message) (rest : list playback) :
  play_song n (Yield <$> msgs) lg = send_all msgs (__init__ n false lg) ∧
  ((∀ msg, msg ∈ msgs → valid msg = true ∧ silences msg = false) →
   ∀ cmd, cmd ∈ commands_of (play_song n (Yield <$> msgs) lg) → cmd_note cmd ≠ note_stop) ∧
  (∀ self out, send_all msgs (__init__ n false lg) = (inr tt, self, out) →
     play_song n ((Yield <$> msgs) ++ KeyboardInterrupt :: rest) lg =
     (stop_result lg, self, out ++ stop_all n)).
Proof.
  unfold play_song. rewrite play_loop_yield. split; [done |]. split.
  - intros Hmsgs cmd. by apply send_all_no_stop_command.
  - intros self out Hrun.
    by rewrite (play_loop_interrupted msgs rest _ self out (init_port_ok _ _ _) Hrun).
Qed.

Lemma play_song_stops_on_interrupt_only_witness :
  (∀ cmd, cmd ∈ commands_of (play_song 1 (Yield <$> [note_on 0 60 100]) "polyphony") →
          cmd_note cmd ≠ note_stop) ∧
  play_song 1 ((Yield <$> [note_on 0 60 100]) ++ [KeyboardInterrupt]) "polyphony" =
  (stop_result "polyphony",
   with_queue (__init__ 1 false "polyphony") [Some {| e_channel := 0; e_note := 60 |}; None],
   [command 0 60] ++ stop_all 1).
Proof.
  pose proof (play_song_stops_on_interrupt_only 1 "polyphony" [note_on 0 60 100] [])
    as (_ & Hquiet & Hstop).
  split.
  - apply Hquiet. intros msg ->%list_elem_of_singleton. split; reflexivity.
  - apply Hstop. reflexivity.
Defined.

(** ** Stop-all *)

(** C3, as stated, fails in its second half: on [stop], [_send] silences
    the channels and then dispatches to [polyphony], which does nothing for
    a message that is neither [note_on] nor [note_off]; a bound slot stays
    bound. *)
Lemma stop_keeps_slots_bound :
  let self := port_of (send (note_on 0 60 100) (__init__ 1 false "polyphony")) in
  holds_at (queue self) 0 60 0 ∧
  result_of (_send stop self) = inr tt ∧
  holds_at (queue (port_of (_send stop self))) 0 60 0 ∧
  queue (port_of (_send stop self)) ≠ replicate 2 None.
Proof. repeat split. discriminate. Qed.

(** C3, amended: a [stop] message given to [_send] issues (channel, STOP)
    for every physical channel index 0..2N-1, lowest first and whatever the
    policy and the state of the slots, and leaves the port as it was: under
    polyphony the call returns normally and no slot of the queue is
    cleared. *)
Theorem send_stop_silences_every_channel (self : port) :
  port_ok self →
  commands_of (_send stop self) = stop_all (controllers self) ∧
  (∀ i, (i < 2 * controllers self)%nat →
        commands_of (_send stop self) !! i = Some (command i note_stop)) ∧
  port_of (_send stop self) = self ∧
  (logic self = "polyphony" → result_of (_send stop self) = inr tt).
Proof.
  intros Hok. rewrite send_stop by done. repeat split.
  - intros i Hi. cbn. unfold stop_all. rewrite list_lookup_fmap.
    by rewrite lookup_seq_lt by done.
  - intros Hlg. cbn. unfold stop_result. by rewrite Hlg.
Qed.

Lemma send_stop_silences_every_channel_witness :
  let self := with_queue (__init__ 1 false "polyphony")
                [Some {| e_channel := 0; e_note := 60 |}; None] in
  commands_of (_send stop self) = [command 0 note_stop; command 1 note_stop] ∧
  port_of (_send stop self) = self.
Proof.
  intros self.
  destruct (send_stop_silences_every_channel self) as (Hout & _ & Hport & _).
  - split; reflexivity.
  - split; [exact Hout | exact Hport].
Defined.

(** ** The policy name *)

(** C4, as stated, fails: [__init__] stores the name unchecked, and the
    [ValueError] comes from [_send], while an event is processed. *)
Lemma invalid_logic_raised_mid_stream :
  let self := __init__ 1 false "chords" in
  logic self = "chords" ∧
  send (note_on 0 60 100) self = (inl (ValueError "Invalid logic type: chords"), self, []) ∧
  play_song 1 [Yield (note_on 0 60 100); Yield (note_off 0 60 64)] "chords" =
  (inl (ValueError "Invalid logic type: chords"), self, []).
Proof. repeat split. Qed.

(** C4, amended: a policy name that is neither 'single_voice' nor
    'polyphony' is accepted by the constructor; the error is raised by
    [_send], on every message it is given, after the STOP commands when the
    message is [stop] and with the port unchanged. *)
Theorem invalid_logic_raised_by_send (self : port) (msg : Message) :
  port_ok self → logic self ≠ "single_voice" → logic self ≠ "polyphony" →
  _send msg self =
  (inl (ValueError (String.append "Invalid logic type: " (logic self))), self,
   if String.eqb (type msg) "stop" then stop_all (controllers self) else []).
Proof.
  intros Hok Hsv%String.eqb_neq Hpoly%String.eqb_neq.
  destruct (String.eqb (type msg) "stop") eqn:Hstop.
  - apply String.eqb_eq in Hstop. destruct msg; try discriminate Hstop.
    rewrite send_stop by done. unfold stop_result. by rewrite Hsv, Hpoly.
  - apply String.eqb_neq in Hstop. rewrite send_dispatch by done.
    by rewrite Hsv, Hpoly.
Qed.

Lemma invalid_logic_raised_by_send_witness :
  _send (note_on 0 60 100) (__init__ 1 false "chords") =
  (inl (ValueError "Invalid logic type: chords"), __init__ 1 false "chords", []).
Proof.
  apply (invalid_logic_raised_by_send (__init__ 1 false "chords") (note_on 0 60 100)).
  - split; reflexivity.
  - discriminate.
  - discriminate.
Defined.

(** ** Single voice *)

(** C5, as stated, fails for negative source channels: the guard of
    [single_voice] is [msg.channel <= self.channels] alone, so channel -1
    passes it, [-1 // 2] indexes the last device from the end and [-1 % 2]
    is pad 1: a command is issued on physical channel 1. *)
Lemma single_voice_plays_negative_channel :
  let self := __init__ 1 false "single_voice" in
  ¬ (0 ≤ -1 < channels self + 1) ∧
  _send (note_on (-1) 60 100) self = (inr tt, self, [command 1 60]) ∧
  commands_of (_send (note_on (-1) 60 100) self) ≠ [].
Proof. repeat split. - cbn. lia. - discriminate. Qed.

(** C5, amended: under the single-voice policy, every note-on or note-off
    (and any other channel message) whose source channel is greater than
    or equal to the number of physical channels is silently ignored: no
    command is issued, the port does not change and nothing is raised. *)
Theorem single_voice_ignores_high_channels (self : port) (msg : Message) (c : Z) :
  logic self = "single_voice" → channel msg = Some c → channels self + 1 ≤ c →
  _send msg self = (inr tt, self, []).
Proof.
  intros Hlg Hc Hhigh.
  rewrite send_dispatch, Hlg by (by destruct msg).
  cbn. apply (single_voice_out_of_range msg c); [done | lia].
Qed.

Lemma single_voice_ignores_high_channels_witness :
  _send (note_on 2 60 100) (__init__ 1 false "single_voice") =
  (inr tt, __init__ 1 false "single_voice", []).
Proof.
  apply (single_voice_ignores_high_channels _ (note_on 2 60 100) 2).
  - reflexivity.
  - reflexivity.
  - cbn. lia.
Defined.

(** ** Polyphony: binding and releasing *)

(** C6: under polyphony a note-on with velocity > 0 binds the lowest free
    slot [i] to (source channel, note) and issues exactly the command
    (i, note); with no free slot it issues nothing and changes nothing.
    The notes are those mido admits, 0..127.  On four channels, note-on
    (0, 60), note-on (0, 64), note-off (0, 60) yield the commands (0, 60),
    (1, 64), (0, STOP) and leave slot 0 free. *)
Theorem polyphony_note_on_first_free (self : port) (c n v : Z) :
  port_ok self → logic self = "polyphony" → 0 < v → 0 ≤ n < 128 →
  (∀ i, free_at (queue self) i → (∀ j, (j < i)%nat → ¬ free_at (queue self) j) →
        _send (note_on c n v) self =
        (inr tt,
         with_queue self (<[i := Some {| e_channel := c; e_note := n |}]> (queue self)),
         [command i n])) ∧
  ((∀ i, ¬ free_at (queue self) i) →
   _send (note_on c n v) self = (inr tt, self, [])) ∧
  play_song 2 [Yield (note_on 0 60 100); Yield (note_on 0 64 100); Yield (note_off 0 60 64)]
    "polyphony" =
  (inr tt,
   with_queue (__init__ 2 false "polyphony")
     [None; Some {| e_channel := 0; e_note := 64 |}; None; None],
   [command 0 60; command 1 64; command 0 note_stop]).
Proof.
  intros Hok Hlg Hv Hn.
  rewrite send_dispatch, Hlg by done. cbn [String.eqb Ascii.eqb Bool.eqb].
  split; [| split].
  - intros i Hfree Hfirst. apply polyphony_note_on_free; [done | lia | done ..].
  - intros Hfull. apply polyphony_note_on_full; [lia | done].
  - reflexivity.
Qed.

Lemma polyphony_note_on_first_free_witness :
  let self := with_queue (__init__ 2 false "polyphony")
                [Some {| e_channel := 0; e_note := 60 |}; None; None; None] in
  _send (note_on 0 64 100) self =
  (inr tt,
   with_queue self [Some {| e_channel := 0; e_note := 60 |};
                    Some {| e_channel := 0; e_note := 64 |}; None; None],
   [command 1 64]).
Proof.
  intros self.
  destruct (polyphony_note_on_first_free self 0 64 100) as (Hbind & _ & _).
  - split; reflexivity.
  - reflexivity.
  - lia.
  - lia.
  - apply (Hbind 1%nat); [reflexivity |].
    intros j Hj. assert (j = 0%nat) as -> by lia. discriminate.
Defined.

(** C7: under polyphony a note-off, or a note-on with velocity zero, for
    the pair (c, n) issues exactly one command, (i, STOP), for the lowest
    slot [i] that holds (c, n), and clears that slot only; when no slot
    holds the pair, nothing is issued and nothing changes. *)
Theorem polyphony_release_first_match (self : port) (msg : Message) (c n : Z) :
  port_ok self → logic self = "polyphony" →
  (∃ v, msg = note_off c n v) ∨ msg = note_on c n 0 →
  (∀ i, holds_at (queue self) c n i → (∀ j, (j < i)%nat → ¬ holds_at (queue self) c n j) →
        _send msg self =
        (inr tt, with_queue self (<[i := None]> (queue self)), [command i note_stop])) ∧
  ((∀ i, ¬ holds_at (queue self) c n i) → _send msg self = (inr tt, self, [])).
Proof.
  intros Hok Hlg Hmsg.
  assert (polyphony msg self = release_scan msg self ∧ channel msg = Some c ∧
          note msg = Some n ∧ type msg ≠ "stop") as (Hpoly & Hc & Hn & Hstop).
  { split; [by apply (polyphony_release msg self c n) |].
    destruct Hmsg as [[v ->] | ->]; by repeat split. }
  rewrite send_dispatch, Hlg by done. cbn [String.eqb Ascii.eqb Bool.eqb].
  rewrite Hpoly. split.
  - intros i Hi Hfirst. by apply (release_scan_found self msg c n i).
  - intros Hnone. by apply (release_scan_missing self msg c n).
Qed.

Lemma polyphony_release_first_match_witness :
  let self := with_queue (__init__ 1 false "polyphony")
                [Some {| e_channel := 0; e_note := 60 |};
                 Some {| e_channel := 0; e_note := 60 |}] in
  _send (note_off 0 60 64) self =
  (inr tt, with_queue self [None; Some {| e_channel := 0; e_note := 60 |}],
   [command 0 note_stop]).
Proof.
  intros self.
  destruct (polyphony_release_first_match self (note_off 0 60 64) 0 60) as [Hfound _].
  - split; reflexivity.
  - reflexivity.
  - left. by exists 64.
  - apply (Hfound 0%nat); [reflexivity |]. intros j Hj. lia.
Defined.

(** ** Single voice: silence and the last-note record *)

(** C8: under single voice, on an in-range source channel [c], a note-on
    with velocity 0 and a note-off for (c, n) have the same outcome:
    the one command (c, STOP), and the same resulting port. *)
Theorem single_voice_zero_velocity_is_note_off (self : port) (c n v : Z) :
  port_ok self → logic self = "single_voice" → 0 ≤ c < channels self + 1 →
  _send (note_on c n 0) self = _send (note_off c n v) self ∧
  _send (note_off c n v) self = (inr tt, self, [command (Z.to_nat c) note_stop]).
Proof.
  intros Hok Hlg Hc.
  rewrite !send_dispatch, Hlg by done. cbn [String.eqb Ascii.eqb Bool.eqb].
  rewrite (single_voice_silence (note_on c n 0) c), (single_voice_silence (note_off c n v) c);
    [done | done | lia | by eauto | done | lia | by eauto].
Qed.

Lemma single_voice_zero_velocity_is_note_off_witness :
  _send (note_on 1 60 0) (__init__ 1 false "single_voice") =
  _send (note_off 1 60 64) (__init__ 1 false "single_voice") ∧
  _send (note_off 1 60 64) (__init__ 1 false "single_voice") =
  (inr tt, __init__ 1 false "single_voice", [command 1 note_stop]).
Proof.
  apply (single_voice_zero_velocity_is_note_off (__init__ 1 false "single_voice") 1 60 64).
  - split; reflexivity.
  - reflexivity.
  - cbn. lia.
Defined.

(** C9, as stated, fails: [previous_notes] is filled with zeros by
    [__init__] and no method assigns to it.  After an in-range note-on of
    note 60 on channel 0 its entry 0 is still 0, and after the matching
    note-off it is still 0 rather than STOP. *)
Lemma previous_notes_not_updated :
  let self := __init__ 1 false "single_voice" in
  let on := _send (note_on 0 60 100) self in
  let off := _send (note_off 0 60 64) (port_of on) in
  commands_of on = [command 0 60] ∧
  previous_notes (port_of on) !! 0%nat = Some 0 ∧
  previous_notes (port_of on) !! 0%nat ≠ Some 60 ∧
  commands_of off = [command 0 note_stop] ∧
  previous_notes (port_of off) !! 0%nat ≠ Some note_stop.
Proof. repeat split; discriminate. Qed.

(** C9, amended: the last-note record [previous_notes] is created by
    [__init__] as one zero per physical channel and is never written
    afterwards: no message, under either policy, changes any of its
    entries, so after any stream of events it still holds its zeros. *)
Theorem previous_notes_never_written (n : nat) (dbg : bool) (lg : string)
    (self : port) (msg : Message) (msgs : list Message) :
  previous_notes (port_of (_send msg self)) = previous_notes self ∧
  previous_notes (port_of (send_all msgs (__init__ n dbg lg))) = replicate (2 * n) 0.
Proof.
  split.
  - by destruct (frames_send msg self) as (_ & _ & -> & _).
  - destruct (frames_send_all msgs (__init__ n dbg lg)) as (_ & _ & -> & _).
    cbn. f_equal. lia.
Qed.

(** ** Stop-all under single voice *)

(** C10: after issuing STOP on every channel for a [stop] message, [_send]
    goes on to dispatch the message; [single_voice] starts by reading
    [msg.channel], which a [stop] message does not have, so on every
    single-voice port sending [stop] ends in that [AttributeError], with
    the STOP commands already issued. *)
Theorem send_stop_single_voice_raises (self : port) :
  port_ok self → logic self = "single_voice" →
  single_voice stop self = (inl (AttributeError "channel"), self, []) ∧
  _send stop self = (inl (AttributeError "channel"), self, stop_all (controllers self)).
Proof.
  intros Hok Hlg. split; [done |].
  rewrite send_stop by done. unfold stop_result. by rewrite Hlg.
Qed.

Lemma send_stop_single_voice_raises_witness :
  _send stop (__init__ 1 false "single_voice") =
  (inl (AttributeError "channel"), __init__ 1 false "single_voice",
   [command 0 note_stop; command 1 note_stop]).
Proof.
  apply (send_stop_single_voice_raises (__init__ 1 false "single_voice")).
  - split; reflexivity.
  - reflexivity.
Defined.

(** * Further properties of the port *)

(** ** Computations that never write the port *)

Lemma readonly_ret {A} (a : A) : readonly (ret a).
Proof. done. Qed.

Lemma readonly_mret {A} (a : A) : readonly (mret a : M A).
Proof. done. Qed.

Lemma readonly_raise {A} e : readonly (raise e : M A).
Proof. done. Qed.

Lemma readonly_get : readonly get.
Proof. done. Qed.

Lemma readonly_emit c : readonly (emit c).
Proof. done. Qed.

Lemma readonly_bind {A B} (c : M A) (k : A → M B) :
  readonly c → (∀ a, readonly (k a)) → readonly (c ≫= k).
Proof.
  intros Hc Hk self. specialize (Hc self).
  unfold mbind, M_bind, bind, port_of in *.
  destruct (c self) as [[[e | a] s] o]; cbn in *; subst s; [done |].
  specialize (Hk a self). unfold port_of in Hk.
  by destruct (k a self) as [[r s'] o'].
Qed.

Lemma readonly_getattr name field : readonly (getattr name field).
Proof. by destruct field. Qed.

Lemma readonly_controllers_at k : readonly (controllers_at k).
Proof.
  apply readonly_bind; [done |]. intros self. by destruct (py_index _ _).
Qed.

Lemma readonly_play_note dev haptic n : readonly (steam_controller_play_note dev haptic n).
Proof. unfold steam_controller_play_note. by destruct (py_index _ _). Qed.

Lemma readonly_for_each idx body : (∀ i, readonly (body i)) → readonly (for_each idx body).
Proof.
  intros H. induction idx as [| i idx IH]; cbn [for_each]; [done |].
  apply readonly_bind; [done |]. by intros [].
Qed.

Create HintDb readonly.
#[local] Hint Resolve readonly_ret readonly_mret readonly_raise readonly_get readonly_emit
  readonly_getattr readonly_controllers_at readonly_play_note : readonly.

Ltac readonly_step :=
  match goal with
  | |- readonly (_ ≫= _) => apply readonly_bind; [| intros ?]
  | |- readonly (for_each _ _) => apply readonly_for_each; intros ?
  | |- readonly (if ?b then _ else _) => destruct b
  | |- readonly (match ?x with _ => _ end) => destruct x
  | |- readonly _ => solve [auto with readonly]
  end.

Lemma readonly_single_voice msg : readonly (single_voice msg).
Proof. unfold single_voice, display_played_notes. repeat readonly_step. Qed.

Lemma readonly_stop_loop idx : readonly (for_each idx stop_step).
Proof. unfold stop_step. repeat readonly_step. Qed.

(** The first part of [_send], up to the dispatch. *)
Lemma send_unfold msg self :
  _send msg self =
  let '(r, s, o) :=
    (if String.eqb (type msg) "stop"
     then for_each (range (channels self + 1)) stop_step self
     else (inr tt, self, [])) in
  match r with
  | inl e => (inl e, s, o)
  | inr _ =>
      let '(r', s', o') :=
        (if String.eqb (logic s) "single_voice" then single_voice msg s
         else if String.eqb (logic s) "polyphony" then polyphony msg s
         else (inl (ValueError (String.append "Invalid logic type: " (logic s))), s, [])) in
      (r', s', o ++ o')
  end.
Proof.
  unfold _send. unfold_M.
  destruct (String.eqb (type msg) "stop"); cbn.
  - destruct (for_each _ stop_step self) as [[[e | []] s] o]; cbn; [done |].
    destruct (String.eqb (logic s) "single_voice"); [by destruct (single_voice msg s) as [[? ?] ?] |].
    destruct (String.eqb (logic s) "polyphony"); [by destruct (polyphony msg s) as [[? ?] ?] | done].
  - destruct (String.eqb (logic self) "single_voice"); [by destruct (single_voice msg self) as [[? ?] ?] |].
    destruct (String.eqb (logic self) "polyphony"); [by destruct (polyphony msg self) as [[? ?] ?] | done].
Qed.

(** X1: the single-voice policy is stateless.  Whatever the message and
    however the call ends, [single_voice] leaves every attribute of the
    port as it was, and so does [_send] on a port whose policy is
    'single_voice'. *)
Theorem single_voice_never_writes (self : port) (msg : Message) :
  port_of (single_voice msg self) = self ∧
  (logic self = "single_voice" → port_of (_send msg self) = self).
Proof.
  split; [apply readonly_single_voice |].
  intros Hlg. rewrite send_unfold.
  assert (∃ r o, (if String.eqb (type msg) "stop"
                  then for_each (range (channels self + 1)) stop_step self
                  else (inr tt, self, [])) = (r, self, o)) as (r & o & ->).
  { destruct (String.eqb (type msg) "stop"); [| by eauto].
    pose proof (readonly_stop_loop (range (channels self + 1)) self) as H.
    destruct (for_each _ stop_step self) as [[r s] o]. cbn in H. subst s. by eauto. }
  destruct r as [e | []]; [done |]. rewrite Hlg. cbn [String.eqb Ascii.eqb Bool.eqb].
  pose proof (readonly_single_voice msg self) as H.
  destruct (single_voice msg self) as [[r' s'] o']. exact H.
Qed.

Lemma single_voice_never_writes_witness :
  port_of (_send (note_on 0 60 100) (__init__ 1 false "single_voice")) =
  __init__ 1 false "single_voice".
Proof.
  apply (single_voice_never_writes (__init__ 1 false "single_voice") (note_on 0 60 100)).
  reflexivity.
Defined.

(** X2: under single voice there is no queuing.  On an in-range source
    channel [c], two note-ons with non-zero velocity in a row each issue
    their own command on physical channel [c], the second one last, and no
    STOP in between. *)
Theorem single_voice_latest_note_wins (self : port) (c n1 v1 n2 v2 : Z) :
  port_ok self → logic self = "single_voice" → 0 ≤ c < channels self + 1 →
  v1 ≠ 0 → v2 ≠ 0 → 0 ≤ n1 < 128 → 0 ≤ n2 < 128 →
  send_all [note_on c n1 v1; note_on c n2 v2] self =
  (inr tt, self, [command (Z.to_nat c) n1; command (Z.to_nat c) n2]).
Proof.
  intros Hok Hlg Hc Hv1 Hv2 Hn1 Hn2.
  assert (∀ n v, v ≠ 0 → 0 ≤ n < 128 →
            send (note_on c n v) self = (inr tt, self, [command (Z.to_nat c) n])) as Hone.
  { intros n v Hv Hn. unfold send. rewrite send_dispatch, Hlg by done.
    cbn [String.eqb Ascii.eqb Bool.eqb]. apply single_voice_note_on; [done | lia | done ..]. }
  rewrite send_all_cons, (Hone n1 v1) by done.
  rewrite send_all_cons, (Hone n2 v2) by done. reflexivity.
Qed.

Lemma single_voice_latest_note_wins_witness :
  send_all [note_on 1 60 100; note_on 1 64 90] (__init__ 1 false "single_voice") =
  (inr tt, __init__ 1 false "single_voice", [command 1 60; command 1 64]).
Proof.
  apply (single_voice_latest_note_wins (__init__ 1 false "single_voice") 1 60 100 64 90);
    first [split; reflexivity | reflexivity | discriminate | cbn; lia | lia].
Defined.

(** X3: under single voice, a message that is neither a note-on, a
    note-off nor a stop is ignored when it carries a channel (control
    change, program change, ...) and raises [AttributeError] when it does
    not (clock, sysex, active sensing, ...); neither issues a command. *)
Theorem single_voice_other_messages (self : port) (msg : Message) :
  logic self = "single_voice" →
  type msg ≠ "note_on" → type msg ≠ "note_off" → type msg ≠ "stop" →
  _send msg self =
  (match channel msg with
   | Some _ => inr tt
   | None => inl (AttributeError "channel")
   end, self, []).
Proof.
  intros Hlg Hon Hoff Hstop. rewrite send_dispatch, Hlg by done.
  cbn [String.eqb Ascii.eqb Bool.eqb]. unfold single_voice. unfold_M.
  destruct msg; try done; cbn; by case_bool_decide.
Qed.

Lemma single_voice_other_messages_witness :
  _send clock (__init__ 1 false "single_voice") =
  (inl (AttributeError "channel"), __init__ 1 false "single_voice", []) ∧
  _send (control_change 0 7 100) (__init__ 1 false "single_voice") =
  (inr tt, __init__ 1 false "single_voice", []).
Proof.
  split.
  - apply (single_voice_other_messages (__init__ 1 false "single_voice") clock);
      first [reflexivity | discriminate].
  - apply (single_voice_other_messages (__init__ 1 false "single_voice")
             (control_change 0 7 100)); first [reflexivity | discriminate].
Defined.

Lemma polyphony_ignores self msg :
  logic self = "polyphony" →
  type msg ≠ "note_on" → type msg ≠ "note_off" → type msg ≠ "stop" →
  _send msg self = (inr tt, self, []).
Proof.
  intros Hlg Hon Hoff Hstop. rewrite send_dispatch, Hlg by done.
  cbn [String.eqb Ascii.eqb Bool.eqb]. unfold polyphony.
  by destruct msg.
Qed.

(** X4: under polyphony, every message that is neither a note-on, a
    note-off nor a stop is a no-op, with or without a channel: nothing is
    issued, nothing changes, nothing is raised. *)
Theorem polyphony_other_messages (self : port) (msg : Message) :
  logic self = "polyphony" →
  type msg ≠ "note_on" → type msg ≠ "note_off" → type msg ≠ "stop" →
  _send msg self = (inr tt, self, []).
Proof. apply polyphony_ignores. Qed.

Lemma polyphony_other_messages_witness :
  _send clock (__init__ 1 false "polyphony") = (inr tt, __init__ 1 false "polyphony", []).
Proof.
  apply (polyphony_other_messages (__init__ 1 false "polyphony") clock);
    first [reflexivity | discriminate].
Defined.

(** ** Polyphony: every outcome on a well-formed port *)

Lemma first_slot (P : option entry → Prop) `{∀ x, Decision (P x)} (q : list (option entry)) :
  (∃ i x, q !! i = Some x ∧ P x ∧ ∀ j, (j < i)%nat → ∀ y, q !! j = Some y → ¬ P y) ∨
  (∀ i x, q !! i = Some x → ¬ P x).
Proof.
  destruct (list_find P q) as [[i x] |] eqn:Hfind.
  - apply list_find_Some in Hfind as (Hi & HP & Hbefore). left. exists i, x.
    split; [done |]. split; [done |]. intros j Hj y Hy. by eapply Hbefore.
  - apply list_find_None in Hfind. right. intros i x Hi.
    by eapply (Forall_lookup_1 _ _ _ _ Hfind).
Qed.

Lemma first_free_or_full (q : list (option entry)) :
  (∃ i, free_at q i ∧ ∀ j, (j < i)%nat → ¬ free_at q j) ∨ (∀ i, ¬ free_at q i).
Proof.
  unfold free_at.
  destruct (first_slot (λ x, x = None) q) as [(i & x & Hi & -> & Hbefore) | Hnone].
  - left. exists i. split; [done |]. intros j Hj Hfree. by eapply Hbefore.
  - right. intros i Hi. by eapply Hnone.
Qed.

Lemma first_holder_or_none (q : list (option entry)) c n :
  (∃ i, holds_at q c n i ∧ ∀ j, (j < i)%nat → ¬ holds_at q c n j) ∨
  (∀ i, ¬ holds_at q c n i).
Proof.
  unfold holds_at.
  destruct (first_slot (λ x, x = Some {| e_channel := c; e_note := n |}) q)
    as [(i & x & Hi & -> & Hbefore) | Hnone].
  - left. exists i. split; [done |]. intros j Hj Hheld. by eapply Hbefore.
  - right. intros i Hi. by eapply Hnone.
Qed.

Lemma valid_note_range c n v :
  valid (note_on c n v) = true → 0 ≤ n < 128.
Proof.
  cbn. intros [[_ Hn%bool_decide_eq_true]%andb_prop _]%andb_prop. done.
Qed.

(** The four ways [_send] can end under polyphony: stop-all, nothing, one
    slot bound, one slot released. *)
Lemma polyphony_outcome self msg :
  port_ok self → logic self = "polyphony" → valid msg = true →
  (msg = stop ∧ _send msg self = (inr tt, self, stop_all (controllers self))) ∨
  (msg ≠ stop ∧ _send msg self = (inr tt, self, [])) ∨
  (∃ i c n v, msg = note_on c n v ∧ v ≠ 0 ∧ free_at (queue self) i ∧
     _send msg self =
     (inr tt, with_queue self (<[i := Some {| e_channel := c; e_note := n |}]> (queue self)),
      [command i n])) ∨
  (∃ i c n, holds_at (queue self) c n i ∧
     _send msg self =
     (inr tt, with_queue self (<[i := None]> (queue self)), [command i note_stop])).
Proof.
  intros Hok Hlg Hvalid.
  assert (∀ c n, (∃ v, msg = note_off c n v) ∨ msg = note_on c n 0 →
            (msg ≠ stop ∧ _send msg self = (inr tt, self, [])) ∨
            (∃ i c n, holds_at (queue self) c n i ∧
               _send msg self =
               (inr tt, with_queue self (<[i := None]> (queue self)), [command i note_stop])))
    as Hrelease.
  { intros c n Hmsg.
    assert (channel msg = Some c ∧ note msg = Some n ∧ type msg ≠ "stop" ∧ msg ≠ stop)
      as (Hc & Hn & Hstop & Hne) by (destruct Hmsg as [[v ->] | ->]; by repeat split).
    rewrite send_dispatch, Hlg by done. cbn [String.eqb Ascii.eqb Bool.eqb].
    rewrite (polyphony_release msg self c n Hmsg).
    destruct (first_holder_or_none (queue self) c n) as [(i & Hi & Hfirst) | Hnone].
    - right. exists i, c, n. split; [done |]. by apply (release_scan_found self msg c n i).
    - left. split; [done |]. by apply (release_scan_missing self msg c n). }
  destruct (decide (type msg = "stop")) as [Hstop | Hstop].
  { left. destruct msg; try discriminate Hstop. split; [done |].
    rewrite send_stop by done. unfold stop_result. by rewrite Hlg. }
  right.
  destruct msg as [c n v | c n v | | | | | | | | | | | | | | | |];
    try (left; split; [done |]; by apply polyphony_ignores);
    [destruct (Hrelease c n) as [? | ?]; by eauto |].
  destruct (decide (v = 0)) as [-> | Hv].
  { destruct (Hrelease c n) as [? | ?]; by eauto. }
  rewrite send_dispatch, Hlg by done. cbn [String.eqb Ascii.eqb Bool.eqb].
  destruct (first_free_or_full (queue self)) as [(i & Hi & Hfirst) | Hfull].
  - right; left. exists i, c, n, v. repeat split; [done .. |].
    apply polyphony_note_on_free; [done | done | by eapply valid_note_range | done | done].
  - left. split; [done |]. by apply polyphony_note_on_full.
Qed.

Lemma send_all_polyphony_returns msgs self :
  port_ok self → logic self = "polyphony" →
  (∀ msg, msg ∈ msgs → valid msg = true) →
  result_of (send_all msgs self) = inr tt.
Proof.
  revert self. induction msgs as [| msg msgs IH]; intros self Hok Hlg Hvalid; [done |].
  rewrite send_all_cons. unfold send.
  pose proof (frames_send msg self) as Hframe.
  assert (result_of (_send msg self) = inr tt) as Hres.
  { destruct (polyphony_outcome self msg Hok Hlg (Hvalid msg ltac:(by left)))
      as [[_ ->] | [[_ ->] | [(i & c & n & v & _ & _ & _ & ->) | (i & c & n & _ & ->)]]]; done. }
  destruct (_send msg self) as [[[e | []] s] o]; [done |].
  change (port_of (inr (), s, o)) with s in Hframe.
  specialize (IH s).
  destruct (send_all msgs s) as [[r s'] o']. apply IH.
  - by eapply frame_port_ok.
  - destruct Hframe as (_ & _ & _ & _ & -> & _). done.
  - intros m Hm. apply Hvalid. by right.
Qed.

(** X5: polyphony never raises.  On a well-formed polyphony port every
    valid mido message returns normally, issuing at most one command
    unless it is a stop; hence a whole stream of valid messages is
    processed to its end. *)
Theorem polyphony_never_raises (self : port) (msg : Message) (msgs : list Message) :
  port_ok self → logic self = "polyphony" →
  (valid msg = true →
   result_of (_send msg self) = inr tt ∧
   (msg ≠ stop → (length (commands_of (_send msg self)) ≤ 1)%nat)) ∧
  ((∀ m, m ∈ msgs → valid m = true) → result_of (send_all msgs self) = inr tt).
Proof.
  intros Hok Hlg. split; [| by apply send_all_polyphony_returns].
  intros Hvalid.
  destruct (polyphony_outcome self msg Hok Hlg Hvalid)
    as [[-> ->] | [[_ ->] | [(i & c & n & v & _ & _ & _ & ->) | (i & c & n & _ & ->)]]];
    (split; [done |]); intros; cbn; try lia. done.
Qed.

Lemma polyphony_never_raises_witness :
  result_of (send_all [note_on 3 60 100; clock; note_off 3 61 0; note_on 3 60 0; stop]
               (__init__ 1 false "polyphony")) = inr tt.
Proof.
  apply (polyphony_never_raises (__init__ 1 false "polyphony") stop
           [note_on 3 60 100; clock; note_off 3 61 0; note_on 3 60 0; stop]).
  - split; reflexivity.
  - reflexivity.
  - intros m Hm. repeat (apply elem_of_cons in Hm as [-> | Hm]; [reflexivity |]).
    by apply elem_of_nil in Hm.
Defined.

(** ** Polyphony: binding and releasing compose *)

Lemma with_queue_id self : with_queue self (queue self) = self.
Proof. by destruct self. Qed.

(** X6: a note-on followed by its note-off is a round trip.  When the
    lowest free slot is [i] and no lower slot already holds the pair, the
    note-on issues (i, note), the matching note-off issues (i, STOP), and
    the port is back in the state it started from. *)
Theorem polyphony_note_on_off_round_trip (self : port) (c n v v' : Z) (i : nat) :
  port_ok self → logic self = "polyphony" → v ≠ 0 → 0 ≤ n < 128 →
  free_at (queue self) i → (∀ j, (j < i)%nat → ¬ free_at (queue self) j) →
  (∀ j, (j < i)%nat → ¬ holds_at (queue self) c n j) →
  send_all [note_on c n v; note_off c n v'] self =
  (inr tt, self, [command i n; command i note_stop]).
Proof.
  intros Hok Hlg Hv Hn Hfree Hfirst Hnew.
  assert (i < length (queue self))%nat as Hlt by (by eapply lookup_lt_Some).
  set (e := {| e_channel := c; e_note := n |}).
  set (self' := with_queue self (<[i := Some e]> (queue self))).
  assert (port_ok self') as Hok'.
  { destruct Hok as [Hch Hlen]. split; [done |]. cbn. by rewrite length_insert. }
  rewrite send_all_cons. unfold send at 1.
  rewrite send_dispatch, Hlg by done. cbn [String.eqb Ascii.eqb Bool.eqb].
  rewrite (polyphony_note_on_free self c n v i) by done. fold e self'.
  rewrite send_all_cons. unfold send.
  rewrite send_dispatch by done.
  change (logic self') with (logic self). rewrite Hlg. cbn [String.eqb Ascii.eqb Bool.eqb].
  rewrite (polyphony_release (note_off c n v') self' c n) by eauto.
  rewrite (release_scan_found self' (note_off c n v') c n i); [| done | done | done | |].
  - cbn. rewrite list_insert_insert_eq, list_insert_id by done.
    by destruct self.
  - unfold holds_at. cbn. by rewrite list_lookup_insert_eq.
  - intros j Hj. unfold holds_at. cbn. rewrite list_lookup_insert_ne by lia.
    by apply Hnew.
Qed.

Lemma polyphony_note_on_off_round_trip_witness :
  let self := with_queue (__init__ 1 false "polyphony")
                [Some {| e_channel := 0; e_note := 60 |}; None] in
  send_all [note_on 0 64 100; note_off 0 64 64] self =
  (inr tt, self, [command 1 64; command 1 note_stop]).
Proof.
  intros self.
  apply (polyphony_note_on_off_round_trip self 0 64 100 64 1);
    first [split; reflexivity | reflexivity | discriminate | lia | idtac].
  - intros j Hj. assert (j = 0%nat) as -> by lia. discriminate.
  - intros j Hj. assert (j = 0%nat) as -> by lia. discriminate.
Defined.

Lemma bound_allocate_length e i (q : list (option entry)) :
  free_at q i → length (bound (<[i := Some e]> q)) = S (length (bound q)).
Proof.
  unfold free_at. revert i. induction q as [| y q IH]; intros [| i]; cbn [insert list_insert];
    rewrite ?bound_cons; try done.
  - by intros [= ->].
  - cbn. intros Hi. destruct y; cbn; by rewrite IH.
Qed.

Lemma bound_release_length c n i (q : list (option entry)) :
  holds_at q c n i → S (length (bound (<[i := None]> q))) = length (bound q).
Proof.
  unfold holds_at. revert i. induction q as [| y q IH]; intros [| i]; cbn [insert list_insert];
    rewrite ?bound_cons; try done.
  - by intros [= ->].
  - cbn. intros Hi. destruct y; cbn; by rewrite <- (IH i).
Qed.

(** X7: the voices in use are counted exactly.  On a well-formed
    polyphony port a note-on with non-zero velocity that finds a free slot
    raises the number of bound slots by one, and a note-off or
    velocity-zero note-on whose pair is bound lowers it by one. *)
Theorem polyphony_occupancy (self : port) (msg : Message) (c n v : Z) :
  port_ok self → logic self = "polyphony" → valid msg = true →
  (msg = note_on c n v → v ≠ 0 → (∃ i, free_at (queue self) i) →
   length (bound (queue (port_of (_send msg self)))) = S (length (bound (queue self)))) ∧
  ((∃ v', msg = note_off c n v') ∨ msg = note_on c n 0 → (∃ i, holds_at (queue self) c n i) →
   S (length (bound (queue (port_of (_send msg self))))) = length (bound (queue self))).
Proof.
  intros Hok Hlg Hvalid. split.
  - intros -> Hv [k Hk].
    destruct (first_free_or_full (queue self)) as [(i & Hi & Hfirst) | Hfull];
      [| by destruct (Hfull k)].
    rewrite send_dispatch, Hlg by done. cbn [String.eqb Ascii.eqb Bool.eqb].
    rewrite (polyphony_note_on_free self c n v i);
      [| done | done | by eapply valid_note_range | done | done].
    cbn. by apply bound_allocate_length.
  - intros Hmsg [k Hk].
    destruct (first_holder_or_none (queue self) c n) as [(i & Hi & Hfirst) | Hnone];
      [| by destruct (Hnone k)].
    assert (channel msg = Some c ∧ note msg = Some n ∧ type msg ≠ "stop")
      as (Hc & Hn & Hstop) by (destruct Hmsg as [[v' ->] | ->]; by repeat split).
    rewrite send_dispatch, Hlg by done. cbn [String.eqb Ascii.eqb Bool.eqb].
    rewrite (polyphony_release msg self c n Hmsg).
    rewrite (release_scan_found self msg c n i) by done.
    cbn. by eapply bound_release_length.
Qed.

Lemma polyphony_occupancy_witness :
  let self := with_queue (__init__ 1 false "polyphony")
                [Some {| e_channel := 0; e_note := 60 |}; None] in
  length (bound (queue (port_of (_send (note_on 0 64 100) self)))) = 2%nat.
Proof.
  intros self.
  destruct (polyphony_occupancy self (note_on 0 64 100) 0 64 100) as [Hon _].
  - split; reflexivity.
  - reflexivity.
  - reflexivity.
  - apply Hon; [reflexivity | discriminate | by exists 1%nat].
Defined.

(** ** Polyphony: a fresh pool fills in arrival order *)

Lemma occupied_prefix (es : list entry) rest j :
  (j < length es)%nat → ¬ free_at ((Some <$> es) ++ rest) j.
Proof.
  intros Hj. unfold free_at. rewrite lookup_app_l by (by rewrite length_fmap).
  rewrite list_lookup_fmap. by destruct (es !! j).
Qed.

Lemma sounding_note_on msg :
  sounding msg = true →
  ∃ c n v, msg = note_on c n v ∧ v ≠ 0 ∧ 0 ≤ n < 128.
Proof.
  destruct msg as [| c n v | | | | | | | | | | | | | | | |]; try done. cbn.
  intros [Hv%bool_decide_eq_true Hn%bool_decide_eq_true]%andb_prop.
  exists c, n, v. repeat split; lia.
Qed.

Lemma polyphony_fill msgs : ∀ self es m,
  port_ok self → logic self = "polyphony" →
  queue self = (Some <$> es) ++ replicate m None →
  (∀ msg, msg ∈ msgs → sounding msg = true) →
  send_all msgs self =
  (inr tt,
   with_queue self ((Some <$> (es ++ take m (pair_of <$> msgs))) ++
                    replicate (m - length msgs) None),
   imap (λ k msg, command (length es + k) (e_note (pair_of msg))) (take m msgs)).
Proof.
  induction msgs as [| msg msgs IH]; intros self es m Hok Hlg Hq Hmsgs.
  { cbn. rewrite !take_nil, app_nil_r, Nat.sub_0_r, <- Hq, with_queue_id. done. }
  destruct (sounding_note_on msg) as (c & n & v & -> & Hv & Hn); [apply Hmsgs; by left |].
  assert (∀ m', m' ∈ msgs → sounding m' = true) as Hrest by (intros; apply Hmsgs; by right).
  rewrite send_all_cons. unfold send.
  rewrite send_dispatch, Hlg by done. cbn [String.eqb Ascii.eqb Bool.eqb].
  destruct m as [| m].
  - rewrite polyphony_note_on_full; [| done |].
    + rewrite (IH self es 0%nat) by done. by rewrite !take_0.
    + intros i Hi. rewrite Hq in Hi. cbn in Hi. rewrite app_nil_r in Hi.
      unfold free_at in Hi. rewrite list_lookup_fmap in Hi. by destruct (es !! i).
  - set (e := {| e_channel := c; e_note := n |}).
    rewrite (polyphony_note_on_free self c n v (length es)); [| done .. | |].
    + fold e.
      rewrite (IH (with_queue self (<[length es := Some e]> (queue self))) (es ++ [e]) m);
        [| | done | | done].
      * cbn [fmap list_fmap take length Nat.sub imap]. unfold with_queue at 1 2. cbn [controllers channels previous_notes debug logic queue].
        rewrite <- app_assoc. cbn [app]. rewrite Nat.add_0_r. f_equal. f_equal.
        apply imap_ext. intros k x _. cbn. rewrite length_app. cbn. f_equal. lia.
      * destruct Hok as [Hch Hlen]. split; [done |]. cbn. by rewrite length_insert.
      * cbn. rewrite Hq. rewrite insert_app_r_alt by (by rewrite length_fmap).
        rewrite length_fmap, Nat.sub_diag. cbn. rewrite fmap_app. cbn.
        by rewrite <- app_assoc.
    + unfold free_at. rewrite Hq, lookup_app_r by (by rewrite length_fmap).
      by rewrite length_fmap, Nat.sub_diag.
    + intros j Hj. rewrite Hq. by apply occupied_prefix.
Qed.

(** X8: a fresh polyphony pool fills in arrival order.  Sent to a newly
    built port for [n] devices, a run of note-ons (non-zero velocity,
    notes of the MIDI scale) binds slot [k] to the [k]-th note-on and
    issues the command (k, note) for it, for the first [2 * n] of them;
    every later note-on is dropped without a command, and nothing is
    raised. *)
Theorem polyphony_fills_in_arrival_order (n : nat) (dbg : bool) (msgs : list Message) :
  (∀ msg, msg ∈ msgs → sounding msg = true) →
  send_all msgs (__init__ n dbg "polyphony") =
  (inr tt,
   with_queue (__init__ n dbg "polyphony")
     ((Some <$> take (2 * n) (pair_of <$> msgs)) ++ replicate (2 * n - length msgs) None),
   imap (λ k msg, command k (e_note (pair_of msg))) (take (2 * n) msgs)).
Proof.
  intros Hmsgs.
  rewrite (polyphony_fill msgs (__init__ n dbg "polyphony") [] (2 * n));
    [done | apply init_port_ok | done | | done].
  cbn. f_equal. lia.
Qed.

Lemma polyphony_fills_in_arrival_order_witness :
  send_all [note_on 0 60 100; note_on 5 64 90; note_on 0 67 80]
    (__init__ 1 false "polyphony") =
  (inr tt,
   with_queue (__init__ 1 false "polyphony")
     [Some {| e_channel := 0; e_note := 60 |}; Some {| e_channel := 5; e_note := 64 |}],
   [command 0 60; command 1 64]).
Proof.
  apply (polyphony_fills_in_arrival_order 1 false
           [note_on 0 60 100; note_on 5 64 90; note_on 0 67 80]).
  intros msg Hm. repeat (apply elem_of_cons in Hm as [-> | Hm]; [reflexivity |]).
  by apply elem_of_nil in Hm.
Defined.

(** ** Edge cases of the configuration *)



(** X10: the shape of the port is fixed for its lifetime.  Whatever stream
    of messages is sent and however it ends, the number of devices, the
    channel count, the policy name, the debug flag and the number of slots
    stay what they were; a port with two channels and two slots per device
    stays one. *)
Theorem port_shape_is_invariant (self : port) (msgs : list Message) :
  let self' := port_of (send_all msgs self) in
  controllers self' = controllers self ∧ channels self' = channels self ∧
  logic self' = logic self ∧ debug self' = debug self ∧
  length (queue self') = length (queue self) ∧
  (port_ok self → port_ok self').
Proof.
  intros self'. pose proof (frames_send_all msgs self) as Hframe. fold self' in Hframe.
  destruct Hframe as (Hc & Hch & _ & Hd & Hl & Hq).
  repeat split; try done.
  - destruct H as [H _]. congruence.
  - destruct H as [_ H]. congruence.
Qed.

Lemma port_shape_is_invariant_witness :
  port_ok (port_of (send_all [note_on 0 60 100; stop; note_off 0 60 0]
                      (__init__ 2 false "polyphony"))).
Proof.
  apply (port_shape_is_invariant (__init__ 2 false "polyphony")
           [note_on 0 60 100; stop; note_off 0 60 0]).
  split; reflexivity.
Defined.

(** X11: the guard of [single_voice] has no lower bound.  A note-on with
    non-zero velocity on a negative source channel [c] is played, not
    ignored: for [c] down to minus the channel count, Python's negative
    indexing sends it to physical channel [channel count + c]; below that,
    [self.controllers[c // 2]] raises [IndexError] and nothing is issued. *)
Theorem single_voice_negative_channel (self : port) (c n v : Z) :
  port_ok self → logic self = "single_voice" → v ≠ 0 → 0 ≤ n < 128 →
  (- (channels self + 1) ≤ c < 0 →
   _send (note_on c n v) self =
   (inr tt, self, [command (Z.to_nat (channels self + 1 + c)) n])) ∧
  (c < - (channels self + 1) →
   _send (note_on c n v) self = (inl IndexError, self, [])).
Proof.
  intros [Hch Hlen] Hlg Hv Hn.
  rewrite send_dispatch, Hlg by done. cbn [String.eqb Ascii.eqb Bool.eqb].
  unfold single_voice, controllers_at, display_played_notes.
  cbn [channel type velocity note getattr String.eqb Ascii.eqb Bool.eqb].
  unfold_M. cbn -[Nat.div Z.modulo Z.div steam_controller_play_note py_index].
  split; intros Hc.
  - rewrite bool_decide_eq_true_2 by lia. rewrite bool_decide_eq_false_2 by done.
    unfold py_index. rewrite bool_decide_eq_false_2 by (pose proof (Z.div_lt_upper_bound c 2 0); lia).
    rewrite bool_decide_eq_true_2; cycle 1.
    { split; [apply Z.div_le_lower_bound; lia | apply Z.div_lt_upper_bound; lia]. }
    fold (py_index midi_frequency_len). rewrite play_note_valid by done.
    unfold command. cbn -[Nat.div Z.modulo Z.div]. do 3 f_equal.
    f_equal.
    + rewrite <- (Nat2Z.id (Z.to_nat _ / 2)), Nat2Z.inj_div, Z2Nat.id by lia.
      f_equal. replace (channels self + 1 + c) with (c + Z.of_nat (controllers self) * 2) by lia.
      rewrite Z.div_add by lia. lia.
    + rewrite Z2Nat.id by lia.
      replace (channels self + 1 + c) with (c + Z.of_nat (controllers self) * 2) by lia.
      by rewrite Z.mod_add by lia.
  - rewrite bool_decide_eq_true_2 by lia. rewrite bool_decide_eq_false_2 by done.
    unfold py_index.
    assert (c / 2 < - Z.of_nat (controllers self)) by (apply Z.div_lt_upper_bound; lia).
    by rewrite !bool_decide_eq_false_2 by lia.
Qed.

Lemma single_voice_negative_channel_witness :
  _send (note_on (-3) 60 100) (__init__ 2 false "single_voice") =
  (inr tt, __init__ 2 false "single_voice", [command 1 60]) ∧
  _send (note_on (-5) 60 100) (__init__ 2 false "single_voice") =
  (inl IndexError, __init__ 2 false "single_voice", []).
Proof.
  split.
  - apply (single_voice_negative_channel (__init__ 2 false "single_voice") (-3) 60 100);
      first [split; reflexivity | reflexivity | discriminate | cbn; lia | lia].
  - apply (single_voice_negative_channel (__init__ 2 false "single_voice") (-5) 60 100);
      first [split; reflexivity | reflexivity | discriminate | cbn; lia | lia].
Defined.

(** ** File playback: exceptions *)

Lemma play_loop_aborts pre : ∀ msg rest self self1 out e self2 out',
  send_all pre self = (inr tt, self1, out) →
  send msg self1 = (inl e, self2, out') →
  play_loop ((Yield <$> pre) ++ Yield msg :: rest) self = (inl e, self2, out ++ out').
Proof.
  induction pre as [| m pre IH]; intros msg rest self self1 out e self2 out'.
  - intros [= <- <-] Hmsg. cbn [fmap list_fmap app play_loop].
    by rewrite (bind_inl _ _ _ _ _ _ Hmsg).
  - rewrite send_all_cons. cbn [fmap list_fmap app play_loop].
    unfold mbind, M_bind, bind.
    destruct (send m self) as [[[e' | []] s] o]; [done |].
    destruct (send_all pre s) as [[r s'] o'] eqn:Hpre. intros [= -> -> <-] Hmsg.
    rewrite (IH msg rest s self1 o' e self2 out' Hpre Hmsg). by rewrite app_assoc.
Qed.

(** X12: an exception other than [KeyboardInterrupt] ends [play_song] on
    the spot.  When the messages before [msg] are sent without error and
    sending [msg] raises, [play_song] raises that exception; nothing that
    follows in the file is sent, and no stop-all is issued, so the
    commands are those issued up to the failure. *)
Theorem play_song_aborts_on_exception (n : nat) (lg : string) (pre : list Message)
    (msg : Message) (rest : list playback) (self1 self2 : port) (out out' : list Cmd)
    (e : exn) :
  send_all pre (__init__ n false lg) = (inr tt, self1, out) →
  send msg self1 = (inl e, self2, out') →
  play_song n ((Yield <$> pre) ++ Yield msg :: rest) lg = (inl e, self2, out ++ out').
Proof. intros Hpre Hmsg. unfold play_song. by eapply play_loop_aborts. Qed.

Lemma play_song_aborts_on_exception_witness :
  play_song 1 [Yield (note_on 0 60 100); Yield sysex; Yield (note_off 0 60 64);
               KeyboardInterrupt] "single_voice" =
  (inl (AttributeError "channel"), __init__ 1 false "single_voice", [command 0 60]).
Proof.
  apply (play_song_aborts_on_exception 1 "single_voice" [note_on 0 60 100] sysex
           [Yield (note_off 0 60 64); KeyboardInterrupt]
           (__init__ 1 false "single_voice") (__init__ 1 false "single_voice")
           [command 0 60] []); reflexivity.
Defined.

(** ** [tune] *)



(** ** The pulse command *)

Lemma pulse_table_ok : forallb pulse.pulse_ok pulse.table_indices = true.
Proof. vm_compute. reflexivity. Qed.

Lemma pulse_scale_decreasing : forallb pulse.period_above pulse.scale = true.
Proof. vm_compute. reflexivity. Qed.

Lemma elem_of_table_indices note : -128 ≤ note < 128 → note ∈ pulse.table_indices.
Proof.
  intros H. unfold pulse.table_indices. apply list_elem_of_fmap.
  exists (Z.to_nat (note + 128)). split; [lia |]. apply elem_of_seq. lia.
Qed.

Lemma elem_of_scale note : 0 ≤ note < 128 → note ∈ pulse.scale.
Proof.
  intros H. unfold pulse.scale. apply list_elem_of_fmap.
  exists (Z.to_nat note). split; [lia |]. apply elem_of_seq. lia.
Qed.

Lemma pulse_bytes_in_table note :
  -128 ≤ note < 128 →
  ∃ p_lo p_hi r_lo r_hi,
    pulse.pulse_bytes note = inl ((p_lo, p_hi), (r_lo, r_hi)) ∧
    0 ≤ p_lo < 256 ∧ 0 ≤ p_hi < 256 ∧ 0 ≤ r_lo < 256 ∧ 0 ≤ r_hi < 256 ∧
    (r_lo, r_hi) = if bool_decide (note = note_stop) then (0, 0) else (0xFF, 0x7F).
Proof.
  intros Hnote%elem_of_table_indices.
  pose proof pulse_table_ok as Hall. rewrite forallb_forall in Hall.
  specialize (Hall note ltac:(by apply list_elem_of_In)). unfold pulse.pulse_ok in Hall.
  destruct (pulse.pulse_bytes note) as [[[p_lo p_hi] [r_lo r_hi]] |]; [| done].
  apply andb_prop in Hall as [Hbytes Hrepeat%bool_decide_eq_true].
  cbn [forallb] in Hbytes.
  repeat (apply andb_prop in Hbytes as [?%bool_decide_eq_true Hbytes]).
  by exists p_lo, p_hi, r_lo, r_hi.
Qed.

Lemma pulse_bytes_off_table note :
  ¬ (-128 ≤ note < 128) → pulse.pulse_bytes note = inr "IndexError".
Proof.
  intros Hnote. unfold pulse.pulse_bytes.
  rewrite bool_decide_eq_false_2 by (unfold note_stop; lia).
  unfold py_index, midi_frequency_len.
  by rewrite !bool_decide_eq_false_2 by lia.
Qed.

Lemma play_note_transfer_bytes haptic note p_lo p_hi r_lo r_hi :
  pulse.pulse_bytes note = inl ((p_lo, p_hi), (r_lo, r_hi)) →
  0 ≤ haptic < 256 → 0 ≤ p_lo < 256 → 0 ≤ p_hi < 256 → 0 ≤ r_lo < 256 → 0 ≤ r_hi < 256 →
  pulse.play_note_transfer haptic note =
  pulse.Transfer ([0x8f; 0x07; haptic; p_lo; p_hi; p_lo; p_hi; r_lo; r_hi] ++ replicate 55 0).
Proof.
  intros Hbytes ? ? ? ? ?. unfold pulse.play_note_transfer. rewrite Hbytes.
  cbn [app forallb]. rewrite !bool_decide_eq_true_2 by lia. reflexivity.
Qed.

(** X14: the packet is always well formed.  For a pad number that is a
    byte and any note the frequency table accepts (0..127, STOP, and the
    negative indices Python allows), [steam_controller_play_note] reaches
    the USB transfer with a 64-byte packet: header 0x8f 0x07, the pad, the
    pulse period twice (high and low duration are equal), the repeat
    count, and 55 zero bytes; no byte overflows.  For any other note it
    raises [IndexError], exactly where the allocator's model of the driver
    raises. *)
Theorem play_note_packet_well_formed (dev : nat) (haptic note : Z) (self : port) :
  0 ≤ haptic < 256 →
  (-128 ≤ note < 128 →
   ∃ p_lo p_hi r_lo r_hi,
     pulse.play_note_transfer haptic note =
     pulse.Transfer ([0x8f; 0x07; haptic; p_lo; p_hi; p_lo; p_hi; r_lo; r_hi] ++ replicate 55 0) ∧
     length ([0x8f; 0x07; haptic; p_lo; p_hi; p_lo; p_hi; r_lo; r_hi] ++ replicate 55 0) = 64%nat ∧
     0 ≤ p_lo < 256 ∧ 0 ≤ p_hi < 256 ∧ 0 ≤ r_lo < 256 ∧ 0 ≤ r_hi < 256 ∧
     result_of (steam_controller_play_note dev haptic note self) = inr tt) ∧
  (¬ (-128 ≤ note < 128) →
   pulse.play_note_transfer haptic note = pulse.Raises "IndexError" ∧
   result_of (steam_controller_play_note dev haptic note self) = inl IndexError).
Proof.
  intros Hhaptic. split; intros Hnote.
  - destruct (pulse_bytes_in_table note Hnote)
      as (p_lo & p_hi & r_lo & r_hi & Hbytes & ? & ? & ? & ? & _).
    exists p_lo, p_hi, r_lo, r_hi.
    rewrite (play_note_transfer_bytes haptic note p_lo p_hi r_lo r_hi) by done.
    repeat split; try lia.
    destruct (decide (note = note_stop)) as [-> | Hstop]; [by rewrite play_note_stop |].
      destruct (decide (0 ≤ note)); [by rewrite play_note_valid by lia |].
      unfold steam_controller_play_note.
      rewrite (bool_decide_eq_false_2 (note = note_stop)) by done.
      unfold py_index, midi_frequency_len.
      rewrite (bool_decide_eq_false_2 (0 ≤ note < _)) by lia.
      by rewrite bool_decide_eq_true_2 by lia.
  - unfold pulse.play_note_transfer. rewrite pulse_bytes_off_table by done.
    split; [done |].
    unfold steam_controller_play_note.
    rewrite (bool_decide_eq_false_2 (note = note_stop)) by (unfold note_stop; lia).
    unfold py_index, midi_frequency_len.
    by rewrite !bool_decide_eq_false_2 by lia.
Qed.

Lemma play_note_packet_well_formed_witness :
  ∃ p_lo p_hi r_lo r_hi,
    pulse.play_note_transfer 1 60 =
    pulse.Transfer ([0x8f; 0x07; 1; p_lo; p_hi; p_lo; p_hi; r_lo; r_hi] ++ replicate 55 0) ∧
    length ([0x8f; 0x07; 1; p_lo; p_hi; p_lo; p_hi; r_lo; r_hi] ++ replicate 55 0) = 64%nat ∧
    0 ≤ p_lo < 256 ∧ 0 ≤ p_hi < 256 ∧ 0 ≤ r_lo < 256 ∧ 0 ≤ r_hi < 256 ∧
    result_of (steam_controller_play_note 0 1 60 (__init__ 1 false "polyphony")) = inr tt.
Proof.
  apply (play_note_packet_well_formed 0 1 60 (__init__ 1 false "polyphony")); lia.
Defined.

(** X15: how silence and sound are encoded.  STOP is sent as the pulse
    period of note 0 with a repeat count of zero; every note of the scale
    is sent with the repeat count 0x7FFF, the "sound until stopped" of the
    default duration. *)
Theorem stop_is_a_pulse_of_zero_repeats (note : Z) :
  0 ≤ note < 128 →
  (∃ p, pulse.pulse_bytes note_stop = inl (p, (0, 0)) ∧
        pulse.pulse_bytes 0 = inl (p, (0xFF, 0x7F))) ∧
  (∃ p, pulse.pulse_bytes note = inl (p, (0xFF, 0x7F))) ∧
  0x7F * 256 + 0xFF = 0x7FFF.
Proof.
  intros Hnote. split; [| split; [| done]].
  - exists (187, 236). split; vm_compute; reflexivity.
  - destruct (pulse_bytes_in_table note ltac:(lia))
      as (p_lo & p_hi & r_lo & r_hi & -> & _ & _ & _ & _ & Hrepeat).
    rewrite bool_decide_eq_false_2 in Hrepeat by (unfold note_stop; lia).
    injection Hrepeat as -> ->. by exists (p_lo, p_hi).
Qed.

Lemma stop_is_a_pulse_of_zero_repeats_witness :
  ∃ p, pulse.pulse_bytes 69 = inl (p, (0xFF, 0x7F)).
Proof.
  destruct (stop_is_a_pulse_of_zero_repeats 69) as (_ & Hsound & _); [lia | exact Hsound].
Defined.

(** X16: higher notes pulse faster, and no two notes share a pulse.  Over
    the MIDI scale the 16-bit pulse period written into the packet is
    strictly decreasing in the note, so two different notes are never
    encoded by the same packet. *)
Theorem pulse_period_strictly_decreasing (a b : Z) :
  0 ≤ a < 128 → 0 ≤ b < 128 → a < b →
  ∃ wa wb, pulse.period_word a = Some wa ∧ pulse.period_word b = Some wb ∧ wb < wa ∧
           ∀ haptic, 0 ≤ haptic < 256 →
                     pulse.play_note_transfer haptic a ≠ pulse.play_note_transfer haptic b.
Proof.
  intros Ha Hb Hab.
  pose proof pulse_scale_decreasing as Hall. rewrite forallb_forall in Hall.
  specialize (Hall a ltac:(by apply list_elem_of_In, elem_of_scale)).
  unfold pulse.period_above in Hall. rewrite forallb_forall in Hall.
  specialize (Hall b ltac:(by apply list_elem_of_In, elem_of_scale)).
  rewrite bool_decide_eq_true_2 in Hall by done.
  unfold pulse.period_word in *.
  destruct (pulse_bytes_in_table a ltac:(lia))
    as (a_lo & a_hi & ar_lo & ar_hi & Hpa & ? & ? & ? & ? & _).
  destruct (pulse_bytes_in_table b ltac:(lia))
    as (b_lo & b_hi & br_lo & br_hi & Hpb & ? & ? & ? & ? & _).
  rewrite Hpa, Hpb in *. apply bool_decide_eq_true in Hall.
  exists (a_hi * 256 + a_lo), (b_hi * 256 + b_lo). repeat split; [done |].
  intros haptic Hhaptic.
  rewrite (play_note_transfer_bytes haptic a a_lo a_hi ar_lo ar_hi),
    (play_note_transfer_bytes haptic b b_lo b_hi br_lo br_hi) by done.
  intros [= -> ->]. lia.
Qed.

Lemma pulse_period_strictly_decreasing_witness :
  ∃ wa wb, pulse.period_word 60 = Some wa ∧ pulse.period_word 61 = Some wb ∧ wb < wa ∧
           ∀ haptic, 0 ≤ haptic < 256 →
                     pulse.play_note_transfer haptic 60 ≠ pulse.play_note_transfer haptic 61.
Proof. apply (pulse_period_strictly_decreasing 60 61); lia. Defined.

(** ** From the allocator to the wire *)

Lemma valid_channel_message msg c :
  valid msg = true → channel msg = Some c → 0 ≤ c.
Proof.
  destruct msg; cbn; try done; intros Hv [= ->];
    repeat (apply andb_prop in Hv as [Hv ?]);
    repeat match goal with H : bool_decide _ = true |- _ => apply bool_decide_eq_true in H end;
    lia.
Qed.

(** Every command [_send] issues for a valid message is (i, note) for a
    physical channel [i] of the port and a note that is STOP or on the
    scale. *)
Lemma send_commands_in_range self msg cmd :
  port_ok self → valid msg = true → cmd ∈ commands_of (_send msg self) →
  ∃ i note, cmd = command i note ∧ (i < 2 * controllers self)%nat ∧
            (note = note_stop ∨ 0 ≤ note < 128).
Proof.
  intros Hok Hvalid.
  destruct (decide (type msg = "stop")) as [Hstop | Hstop].
  { destruct msg; try discriminate Hstop. rewrite send_stop by done. cbn.
    unfold stop_all. intros (i & -> & Hi%elem_of_seq)%list_elem_of_fmap.
    exists i, note_stop. split; [done |]. split; [lia | by left]. }
  destruct (decide (logic self = "polyphony")) as [Hpoly | Hpoly].
  { destruct (polyphony_outcome self msg Hok Hpoly Hvalid)
      as [[-> _] | [[_ ->] | [(i & c & n & v & -> & _ & Hi & ->) | (i & c & n & Hi & ->)]]];
      cbn; [done | by intros ?%elem_of_nil | |]; intros ->%list_elem_of_singleton.
    - exists i, n. split; [done |]. split; [| right; by eapply valid_note_range].
      apply lookup_lt_Some in Hi. destruct Hok as [_ Hlen]. lia.
    - exists i, note_stop. split; [done |]. split; [| by left].
      apply lookup_lt_Some in Hi. destruct Hok as [_ Hlen]. lia. }
  rewrite send_dispatch by done.
  apply String.eqb_neq in Hpoly. rewrite Hpoly.
  destruct (String.eqb (logic self) "single_voice"); [| by intros ?%elem_of_nil].
  destruct (channel msg) as [c |] eqn:Hc;
    [| rewrite single_voice_no_channel by done; by intros ?%elem_of_nil].
  pose proof (valid_channel_message msg c Hvalid Hc) as Hpos.
  destruct (decide (c ≤ channels self)) as [Hin | Hout];
    [| rewrite (single_voice_out_of_range msg c) by (done || lia); by intros ?%elem_of_nil].
  assert (Z.to_nat c < 2 * controllers self)%nat as Hlt by (destruct Hok as [Hch _]; lia).
  destruct msg as [c' n v | c' n v | | | | | | | | | | | | | | | |];
    try discriminate Hc; injection Hc as ->;
    try (unfold single_voice; unfold_M; cbn; rewrite bool_decide_eq_true_2 by done;
         by intros ?%elem_of_nil).
  - rewrite (single_voice_silence (note_off c n v) c) by eauto.
    intros ->%list_elem_of_singleton. exists (Z.to_nat c), note_stop. by auto.
  - destruct (decide (v = 0)) as [-> | Hv].
    + rewrite (single_voice_silence (note_on c n 0) c) by eauto.
      intros ->%list_elem_of_singleton. exists (Z.to_nat c), note_stop. by auto.
    + pose proof (valid_note_range c n v Hvalid).
      rewrite single_voice_note_on by done.
      intros ->%list_elem_of_singleton. exists (Z.to_nat c), n. by auto.
Qed.

(** X17: every command reaches the hardware.  On a port with two channels
    and two slots per device, whatever the policy name, each command that
    [_send] issues for a valid mido message addresses a device of
    [self.controllers], pad 0 or 1, with STOP or a note of the scale, and
    [steam_controller_play_note] turns it into a well-formed 64-byte
    packet: the driver raises neither [IndexError] nor [OverflowError]. *)
Theorem commands_reach_the_hardware (self : port) (msg : Message) (cmd : Cmd) :
  port_ok self → valid msg = true → cmd ∈ commands_of (_send msg self) →
  (cmd_controller cmd < controllers self)%nat ∧
  (cmd_haptic cmd = 0 ∨ cmd_haptic cmd = 1) ∧
  (cmd_note cmd = note_stop ∨ 0 ≤ cmd_note cmd < 128) ∧
  ∃ data, pulse.play_note_transfer (cmd_haptic cmd) (cmd_note cmd) = pulse.Transfer data ∧
          length data = 64%nat.
Proof.
  intros Hok Hvalid Hcmd.
  destruct (send_commands_in_range self msg cmd Hok Hvalid Hcmd) as (i & note & -> & Hi & Hnote).
  cbn [command cmd_controller cmd_haptic cmd_note].
  assert (0 ≤ Z.of_nat i mod 2 < 2) as Hpad by (apply Z.mod_pos_bound; lia).
  split; [apply Nat.Div0.div_lt_upper_bound; lia |].
  split; [lia |]. split; [done |].
  assert (-128 ≤ note < 128) as Htable by (unfold note_stop in Hnote; lia).
  destruct (pulse_bytes_in_table note Htable)
    as (p_lo & p_hi & r_lo & r_hi & Hbytes & ? & ? & ? & ? & _).
  eexists. split; [apply (play_note_transfer_bytes _ note p_lo p_hi r_lo r_hi); (done || lia) |].
  reflexivity.
Qed.

Lemma commands_reach_the_hardware_witness :
  ∃ data, pulse.play_note_transfer 1 64 = pulse.Transfer data ∧ length data = 64%nat.
Proof.
  destruct (commands_reach_the_hardware
              (with_queue (__init__ 1 false "polyphony")
                 [Some {| e_channel := 0; e_note := 60 |}; None])
              (note_on 0 64 100) (command 1 64)) as (_ & _ & _ & Hdata).
  - split; reflexivity.
  - reflexivity.
  - by apply list_elem_of_singleton.
  - exact Hdata.
Defined.


(** ** The display label *)

Lemma note_labels_distinct :
  bool_decide (NoDup ("OFF" :: (note_str <$> pulse.scale))) = true.
Proof. vm_compute. reflexivity. Qed.

(** X18: the display tells the notes apart.  Over the MIDI scale 0..127
    the label of a note (its name among the twelve and its octave, from
    " C-1" to " G9") is different for different notes, and no note of the
    scale is labelled "OFF", the label of STOP. *)
Theorem note_label_identifies_note (a b : Z) :
  0 ≤ a < 128 → 0 ≤ b < 128 →
  note_str note_stop = "OFF" ∧ note_str a ≠ "OFF" ∧
  (note_str a = note_str b → a = b).
Proof.
  intros Ha Hb. pose proof note_labels_distinct as Hnd.
  apply bool_decide_eq_true in Hnd. apply NoDup_cons in Hnd as [Hoff Hnd].
  split; [done |]. split.
  - intros Heq. apply Hoff. rewrite <- Heq. apply list_elem_of_fmap.
    exists a. split; [done | by apply elem_of_scale].
  - intros Heq.
    assert (∀ n, 0 ≤ n < 128 → (note_str <$> pulse.scale) !! Z.to_nat n = Some (note_str n))
      as Hlookup.
    { intros n Hn. unfold pulse.scale. rewrite !list_lookup_fmap.
      rewrite lookup_seq_lt by lia. cbn. by rewrite Z2Nat.id by lia. }
    pose proof (Hlookup a Ha) as Hla. rewrite Heq in Hla.
    pose proof (NoDup_lookup _ _ _ _ Hnd Hla (Hlookup b Hb)). lia.
Qed.

Lemma note_label_identifies_note_witness :
  note_str 60 ≠ "OFF" ∧ (note_str 60 = note_str 72 → 60 = 72).
Proof.
  destruct (note_label_identifies_note 60 72) as (_ & Hoff & Hinj); [lia | lia |].
  split; [exact Hoff | exact Hinj].
Defined.
